(** * Missile Geometry 101: the geodesic and damage-zone pipeline of
    [run_project.py]

    A shallow embedding of the analysis script
    [Assignments/02-Missile_Geometry_101/run_project.py]: the five
    milestones are straight-line code over a list of threat dictionaries,
    and each milestone loop becomes a function over a list of records.

    Numbers.  Python floats are modelled by [pyfloat]: a finite double,
    given by the rational it denotes ([Fin q]), or one of the three
    non-finite values a JSON file can carry ([Infinity], [-Infinity],
    [NaN]).  The machine's multiplication and division of finite doubles
    round, and overflow to an infinity; they are the section variables
    [fmul] and [fdiv].  Comparisons and [round(x, 2)] are computed on the
    value of the double.

    Exceptions.  A Python exception aborts the script; a fallible step
    returns [result A], either [Ok a] or [Raise e].

    The toolkit [wdo.wdo_geo] (haversine_km, initial_bearing_deg,
    destination_point, trajectory_points) is imported by the script and
    lives in another file.  Its trigonometry is taken as the section
    variables [hav], [brg] and [dest]; its contract (input guards,
    sampling times) is modelled from the specification and marked so.
    The geometry engine (shapely, geopandas, pyproj) is taken as section
    variables too. *)

From Stdlib Require Import ZArith QArith Qround Qabs List String Ascii Bool.
From Stdlib Require Import Lia Lqa Permutation Sorted OrderedTypeEx.
Import ListNotations.

Local Open Scope Z_scope.
Local Open Scope Q_scope.

(* ================================================================== *)
(** * Python values and helpers *)
(* ================================================================== *)

Module Py.

(** The exceptions the pipeline can raise. *)
Inductive error : Type :=
| InvalidInput              (* validation error of the geodesic toolkit *)
| KeyError (key : string)   (* missing dictionary key / DataFrame column *)
| ValueError                (* min() or max() of an empty sequence *)
| LineStringError.          (* shapely: a LineString of a single point *)

Inductive result (A : Type) : Type :=
| Ok (a : A)
| Raise (e : error).

Arguments Ok {A} a.
Arguments Raise {A} e.

Definition bind {A B : Type} (m : result A) (k : A -> result B) : result B :=
  match m with
  | Ok a => k a
  | Raise e => Raise e
  end.

(** A [for] loop that appends one value per element; the first exception
    aborts the loop. *)
Fixpoint mapM {A B : Type} (f : A -> result B) (l : list A) : result (list B) :=
  match l with
  | [] => Ok []
  | x :: l' =>
      bind (f x) (fun y => bind (mapM f l') (fun ys => Ok (y :: ys)))
  end.

(** A Python float: a finite double, given by the rational it denotes,
    or a non-finite value. *)
Inductive pyfloat : Type :=
| Fin (q : Q)
| PInf
| NInf
| NaN.

Definition is_finite (x : pyfloat) : bool :=
  match x with Fin _ => true | _ => false end.

Definition Qlt_bool (a b : Q) : bool := negb (Qle_bool b a).

(** [x < y] and [x <= y] on floats: every comparison with NaN is False. *)
Definition pylt (x y : pyfloat) : bool :=
  match x, y with
  | NaN, _ | _, NaN => false
  | Fin a, Fin b => Qlt_bool a b
  | NInf, NInf | PInf, _ => false
  | NInf, _ | Fin _, PInf => true
  | Fin _, NInf => false
  end.

Definition pyle (x y : pyfloat) : bool :=
  match x, y with
  | NaN, _ | _, NaN => false
  | Fin a, Fin b => Qle_bool a b
  | NInf, _ | _, PInf => true
  | PInf, _ | Fin _, NInf => false
  end.

(** Rounding to the nearest integer, ties to the even neighbour: the rule
    of Python's [round]. *)
Definition round_half_even (x : Q) : Z :=
  let f := Qfloor x in
  match Qcompare (x - inject_Z f) (1 # 2) with
  | Lt => f
  | Gt => (f + 1)%Z
  | Eq => if Z.even f then f else (f + 1)%Z
  end.

(** [round(x, 2)] on a finite value. *)
Definition round2 (x : Q) : Q := inject_Z (round_half_even (x * 100)) / 100.

(** [round(x, 2)] on a float: a non-finite value is returned unchanged. *)
Definition pyround2 (x : pyfloat) : pyfloat :=
  match x with
  | Fin a => Fin (round2 a)
  | other => other
  end.

(** A dictionary with string keys, as an association list in insertion
    order (the literals of the script have distinct keys). *)
Definition pydict (V : Type) : Type := list (string * V).

(** [d.get(k, default)]. *)
Fixpoint dict_get {V : Type} (d : pydict V) (k : string) (default : V) : V :=
  match d with
  | [] => default
  | (k', v) :: d' => if String.eqb k' k then v else dict_get d' k default
  end.

(** [d[k]]: raises KeyError when the key is absent. *)
Fixpoint dict_index {V : Type} (d : pydict V) (k : string) : result V :=
  match d with
  | [] => Raise (KeyError k)
  | (k', v) :: d' => if String.eqb k' k then Ok v else dict_index d' k
  end.

(** [Series.unique()]: the distinct values in order of first appearance. *)
Fixpoint unique (l : list string) : list string :=
  match l with
  | [] => []
  | x :: l' => x :: filter (fun y => negb (String.eqb x y)) (unique l')
  end.

(** [sorted(l)] on strings: a stable insertion sort by the lexicographic
    order of the characters' codes ([String.leb]). *)
Fixpoint insert_sorted (x : string) (l : list string) : list string :=
  match l with
  | [] => [x]
  | y :: l' => if String.leb x y then x :: y :: l' else y :: insert_sorted x l'
  end.

Fixpoint sorted (l : list string) : list string :=
  match l with
  | [] => []
  | x :: l' => insert_sorted x (sorted l')
  end.

(** The order [sorted] sorts by. *)
Definition string_le (a b : string) : Prop := String.leb a b = true.

(** [sep.join(l)]. *)
Definition join (sep : string) (l : list string) : string := String.concat sep l.

(** [max(l, key=key)]: the first element whose key is maximal; ValueError
    on an empty sequence. *)
Definition max_step {A : Type} (key : A -> Z) (best y : A) : A :=
  if (key best <? key y)%Z then y else best.

Definition py_max_key {A : Type} (key : A -> Z) (l : list A) : result A :=
  match l with
  | [] => Raise ValueError
  | x :: l' => Ok (fold_left (max_step key) l' x)
  end.

End Py.

Import Py.

Notation "x <- m ;; k" := (bind m (fun x => k))
  (at level 61, m at next level, right associativity).

(* ================================================================== *)
(** * Configuration *)
(* ================================================================== *)

Definition BASE_LAT : Q := 327767 # 10000.     (* 32.7767 *)
Definition BASE_LON : Q := - (96797 # 1000).   (* -96.7970 *)
Definition BASE_PROXIMITY_KM : Q := 500.

(** A style dictionary.  The four entries of [THREAT_STYLES] have every
    key; the fallback literal [{'color': 'gray'}] of the drawing helpers
    has only ['color'], so the other keys are optional. *)
Record Style : Type := mkStyle {
  style_color : string;
  style_marker : option string;
  style_buffer_km : option Z;
  style_severity : option string
}.

Definition full_style (color marker : string) (buffer_km : Z) (severity : string) : Style :=
  mkStyle color (Some marker) (Some buffer_km) (Some severity).

Definition THREAT_STYLES : pydict Style :=
  [ ("alien"%string,    full_style "#00FF00" "green"  150 "High");
    ("orbital"%string,  full_style "#9400D3" "purple" 300 "Critical");
    ("airborne"%string, full_style "#FF8C00" "orange" 100 "Moderate");
    ("kaiju"%string,    full_style "#FF0000" "red"    200 "Severe") ].

(** [{'color': 'gray'}] *)
Definition gray_style : Style := mkStyle "gray" None None None.

(** [style[key]] for the optional keys. *)
Definition style_index {V : Type} (key : string) (field : option V) : result V :=
  match field with
  | Some v => Ok v
  | None => Raise (KeyError key)
  end.

Definition severity_order : pydict Z :=
  [ ("Critical"%string, 4%Z); ("Severe"%string, 3%Z);
    ("High"%string, 2%Z); ("Moderate"%string, 1%Z) ].

(** [lambda s: severity_order.get(s, 0)] *)
Definition severity_rank (s : string) : Z := dict_get severity_order s 0%Z.

Definition OCEAN : string := "Ocean (no land)".

(* ================================================================== *)
(** * Records *)
(* ================================================================== *)

(** An entry of [threats_raw], as loaded from [threats.json]. *)
Module Raw.
Record t : Type := mk {
  id : string;
  type : string;
  origin_lat : pyfloat;
  origin_lon : pyfloat;
  bearing_deg : pyfloat;
  speed_kmh : pyfloat;
  duration_min : pyfloat
}.
End Raw.

(** A dictionary of [threats] after milestone 2. *)
Module Threat.
Record t : Type := mk {
  id : string;
  type : string;
  origin_lat : pyfloat;
  origin_lon : pyfloat;
  bearing_deg : pyfloat;
  speed_kmh : pyfloat;
  duration_min : pyfloat;
  dist_to_base_km : Q;
  bearing_to_base_deg : Q
}.
End Threat.

(** The [LatLon] value returned by [destination_point]. *)
Record LatLon : Type := mkLatLon { lat : Q; lon : Q }.

(** The same dictionary after milestone 3 added its keys
    ([trajectory_line] is [LineString] of the points, see below). *)
Module Track.
Record t : Type := mk {
  threat : Threat.t;
  trajectory_pts : list (Q * Q);      (* (lat, lon) pairs *)
  total_distance_km : pyfloat;
  dest_lat : Q;
  dest_lon : Q;
  num_points : nat
}.
Definition id (t : t) : string := Threat.id (threat t).
Definition type (t : t) : string := Threat.type (threat t).
End Track.

(** A row of [damage_records] / [damage_df]. *)
Record DamageRecord : Type := mkDamage {
  country : string;
  threat_id : string;
  threat_type : string;
  severity : string;
  buffer_km : Z
}.

(** A row of [country_summary] / [summary_df]. *)
Record SummaryRow : Type := mkSummary {
  Country : string;
  Threat_IDs : string;
  Threat_Types : string;
  Worst_Severity : string
}.

(** A row of the [world] GeoDataFrame. *)
Record CountryRow (Geometry : Type) : Type := mkCountry {
  COUNTRY : string;
  geometry : Geometry
}.

Arguments mkCountry {Geometry} _ _.
Arguments COUNTRY {Geometry} _.
Arguments geometry {Geometry} _.

(** A row of [endpoints_gdf], and of [buffers_4326] once its geometry is
    replaced by the damage zone. *)
Module Endpoint.
Record t (Geometry : Type) : Type := mk {
  id : string;
  type : string;
  buffer_km : Z;
  severity : string;
  color : string;
  geometry : Geometry
}.
Arguments mk {Geometry} _ _ _ _ _ _.
Arguments id {Geometry} _.
Arguments type {Geometry} _.
Arguments buffer_km {Geometry} _.
Arguments severity {Geometry} _.
Arguments color {Geometry} _.
Arguments geometry {Geometry} _.
End Endpoint.

(* ================================================================== *)
(** * A grid world for examples *)
(* ================================================================== *)

(** Concrete stand-ins for the engines the pipeline is parametric in,
    used to run it on examples: a geometry is the list of the
    one-degree cells it covers, and distances are taxicab distances at
    111 km per degree.  The pipeline treats them as black boxes. *)
Module Grid.

Definition Geometry : Type := list (Z * Z).

Definition cell (x y : Q) : Z * Z := (Qfloor x, Qfloor y).

Definition Point (x y : Q) : Geometry := [cell x y].

Definition LineString (coords : list (Q * Q)) : Geometry :=
  map (fun c => cell (fst c) (snd c)) coords.

Definition same_cell (c d : Z * Z) : bool :=
  Z.eqb (fst c) (fst d) && Z.eqb (snd c) (snd d).

Definition intersects (a b : Geometry) : bool :=
  existsb (fun c => existsb (same_cell c) b) a.

Definition damage_zone (g : Geometry) (km : Z) : Geometry := g.

Definition hav (lat1 lon1 lat2 lon2 : Q) : Q :=
  111 * (Qabs (lat1 - lat2) + Qabs (lon1 - lon2)).

Definition brg (lat1 lon1 lat2 lon2 : Q) : Q := 0.

(** Product and quotient of doubles, as the exact product and quotient:
    what the machine computes whenever the exact result is a double, as
    it is on the inputs of the examples. *)
Definition fmul (a b : Q) : pyfloat := Fin (a * b).
Definition fdiv (a b : Q) : pyfloat := Fin (a / b).

(** Travel due east at 111 km per degree. *)
Definition dest (lat0 lon0 bearing distance_km : Q) : LatLon :=
  mkLatLon lat0 (lon0 + distance_km / 111).

(** Two countries, each one cell, as (lon, lat) cells. *)
Definition france : CountryRow Geometry := mkCountry "France" [(2, 46)%Z].
Definition spain : CountryRow Geometry := mkCountry "Spain" [(-4, 40)%Z].
Definition world : list (CountryRow Geometry) := [france; spain].

(** A second polygon row that carries the name of the first. *)
Definition corsica : CountryRow Geometry := mkCountry "France" [(9, 42)%Z].

(** A path through the three cells, as (lon, lat) coordinates. *)
Definition path : Geometry :=
  LineString [(25 # 10, 465 # 10); (- (35 # 10), 405 # 10); (95 # 10, 425 # 10)].

(** Damage records of two threats over France. *)
Definition alien_on_france : DamageRecord := mkDamage "France" "T1" "alien" "High" 150.
Definition orbital_on_france : DamageRecord := mkDamage "France" "T2" "orbital" "Critical" 300.

(** Buffer rows: one over France, one over open water. *)
Definition buffer_on_france : Endpoint.t Geometry :=
  Endpoint.mk "T1" "alien" 150 "High" "#00FF00" [(2, 46)%Z].
Definition buffer_on_water : Endpoint.t Geometry :=
  Endpoint.mk "T2" "kaiju" 200 "Severe" "#FF0000" [(0, 0)%Z].

(** A threat of milestone 2 and its track. *)
Definition threat (id type : string) (lat0 lon0 bearing speed duration : Q) : Threat.t :=
  Threat.mk id type (Fin lat0) (Fin lon0) (Fin bearing) (Fin speed) (Fin duration) 0 0.

(** The track of a threat that hovers for two minutes over one point:
    two samples, both that point. *)
Definition track (id type : string) (dest_lat dest_lon : Q) : Track.t :=
  Track.mk (threat id type dest_lat dest_lon 0 0 2)
           [(dest_lat, dest_lon); (dest_lat, dest_lon)] (Fin 0) dest_lat dest_lon 2.

(** The track of a threat that flies due east for four minutes at
    6660 km/h, two degrees of longitude between samples, through the
    given three samples. *)
Definition track_through (id type : string) (pts : list (Q * Q)) : Track.t :=
  Track.mk (threat id type (fst (hd (0, 0) pts)) (snd (hd (0, 0) pts)) 90 6660 4)
           pts (Fin 444) (fst (last pts (0, 0))) (snd (last pts (0, 0)))
           (List.length pts).

(** An eastward pass north of the base: the middle sample is due north
    of it at 500.004 km, the first and the last are at 722.004 km (by
    the grid's distance). *)
Definition pass_at_500 : list (Q * Q) :=
  [(BASE_LAT + (41667 # 9250), BASE_LON - 2);
   (BASE_LAT + (41667 # 9250), BASE_LON);
   (BASE_LAT + (41667 # 9250), BASE_LON + 2)].

(** An eastward pass whose middle sample is 444 km due north of the
    base, the first and the last at 666 km. *)
Definition pass_at_444 : list (Q * Q) :=
  [(BASE_LAT + 4, BASE_LON - 2); (BASE_LAT + 4, BASE_LON); (BASE_LAT + 4, BASE_LON + 2)].

End Grid.

(* ================================================================== *)
(** * The pipeline *)
(* ================================================================== *)

Section Pipeline.

(** The trigonometry of [wdo.wdo_geo] on checked, finite arguments:
    great-circle distance, forward azimuth, and the direct geodesic
    problem. *)
Variable hav : Q -> Q -> Q -> Q -> Q.
Variable brg : Q -> Q -> Q -> Q -> Q.
Variable dest : Q -> Q -> Q -> Q -> LatLon.

(** The machine's product and quotient of two finite doubles: the
    correctly rounded result, or an infinity on overflow. *)
Variable fmul : Q -> Q -> pyfloat.
Variable fdiv : Q -> Q -> pyfloat.

(** The geometry engine: shapely's geometries, [Point(x, y)],
    [LineString(coords)], the predicate [a.intersects(b)], and the damage
    zone of a point (projection to EPSG:3857, [buffer(km * 1000)],
    projection back to EPSG:4326). *)
Variable Geometry : Type.
Variable Point : Q -> Q -> Geometry.
Variable LineString : list (Q * Q) -> Geometry.
Variable intersects : Geometry -> Geometry -> bool.
Variable damage_zone : Geometry -> Z -> Geometry.

(* ------------------------------------------------------------------ *)
(** ** Geodesic primitives and sampler (contract of [wdo.wdo_geo]) *)

(** Modelled from the spec: the NaN/Inf guard of the primitives ("NaN/Inf
    guards on inputs, which should be rejected with a validation error");
    the code of [wdo.wdo_geo] is missing. *)
Definition finite (x : pyfloat) : result Q :=
  match x with
  | Fin q => Ok q
  | _ => Raise InvalidInput
  end.

(** Modelled from the spec: a failed check of the primitives is the
    InvalidInput validation error; the code of [wdo.wdo_geo] is missing. *)
Definition guard (ok : bool) : result unit :=
  if ok then Ok tt else Raise InvalidInput.

(** Modelled from the spec: the GeoPoint invariant, "latitude in
    [-90, 90], longitude in [-180, 180]"; coordinates out of range are
    InvalidInput.  The code of [wdo.wdo_geo] is missing. *)
Definition in_range (a b : Q) : bool :=
  Qle_bool (-(90)) a && Qle_bool a 90 && Qle_bool (-(180)) b && Qle_bool b 180.

(** Modelled from the spec: the check of a GeoPoint argument, finite and
    in range; the code of [wdo.wdo_geo] is missing. *)
Definition geo_point (lat lon : pyfloat) : result (Q * Q) :=
  a <- finite lat ;;
  b <- finite lon ;;
  _ <- guard (in_range a b) ;;
  Ok (a, b).

(** Modelled from the spec: [distance(a, b)], the haversine distance of
    two valid GeoPoints; [haversine_km] of [wdo.wdo_geo] is missing. *)
Definition haversine_km (lat1 lon1 lat2 lon2 : pyfloat) : result Q :=
  p <- geo_point lat1 lon1 ;;
  q <- geo_point lat2 lon2 ;;
  Ok (hav (fst p) (snd p) (fst q) (snd q)).

(** Modelled from the spec: [initial_bearing(a, b)];
    [initial_bearing_deg] of [wdo.wdo_geo] is missing. *)
Definition initial_bearing_deg (lat1 lon1 lat2 lon2 : pyfloat) : result Q :=
  p <- geo_point lat1 lon1 ;;
  q <- geo_point lat2 lon2 ;;
  Ok (brg (fst p) (snd p) (fst q) (snd q)).

(** Modelled from the spec: [destination(origin, bearing_deg,
    distance_km)]; [destination_point] of [wdo.wdo_geo] is missing. *)
Definition destination_point (lat0 lon0 bearing distance_km : pyfloat) : result LatLon :=
  p <- geo_point lat0 lon0 ;;
  b <- finite bearing ;;
  d <- finite distance_km ;;
  Ok (dest (fst p) (snd p) b d).

(** Modelled from the spec: the elapsed times of the sampler, "one sample
    per elapsed time at multiples of step_min up to and including
    duration_min (so the final sample is always the actual endpoint)":
    the multiples [k * step_min] that lie before [duration_min], then
    [duration_min] itself.  The loop of [trajectory_points] in
    [wdo.wdo_geo] is missing; [fuel] bounds its iterations. *)
Fixpoint times_from (fuel : nat) (step_min duration_min : Q) (k : Z) : list Q :=
  match fuel with
  | O => []
  | S fuel' =>
      let t := inject_Z k * step_min in
      if Qlt_bool t duration_min
      then t :: times_from fuel' step_min duration_min (k + 1)
      else [duration_min]
  end.

(** Modelled from the spec: the elapsed times of a trajectory.  The loop
    of [trajectory_points] in [wdo.wdo_geo] is missing; it is run here
    with [ceil(duration_min / step_min) + 1] iterations, which is what it
    needs when [step_min] is positive ([times_from_enough] below). *)
Definition sample_times (step_min duration_min : Q) : list Q :=
  times_from (S (Z.to_nat (Qceiling (duration_min / step_min))))
             step_min duration_min 0.

(** Modelled from the spec: [sample(origin, bearing_deg, speed_kmh,
    duration_min, step_min)]: invalid input (coordinates out of range,
    negative speed or duration, non-finite fields) is rejected, and each
    sample is [destination(origin, bearing_deg, speed_kmh * (t / 60))].
    [trajectory_points] of [wdo.wdo_geo] is missing. *)
Definition trajectory_points
    (origin_lat origin_lon bearing_deg speed_kmh duration_min step_min : pyfloat)
    : result (list (Q * Q)) :=
  _ <- geo_point origin_lat origin_lon ;;
  _ <- finite bearing_deg ;;
  speed <- finite speed_kmh ;;
  duration <- finite duration_min ;;
  step <- finite step_min ;;
  _ <- guard (Qle_bool 0 speed && Qle_bool 0 duration) ;;
  mapM (fun t =>
          p <- destination_point origin_lat origin_lon bearing_deg
                                 (Fin (speed * (t / 60))) ;;
          Ok (lat p, lon p))
       (sample_times step duration).

(** Modelled from the spec: the sample at elapsed time [t],
    [destination(origin, bearing_deg, speed_kmh * (t / 60))], as a
    (lat, lon) pair. *)
Definition sample_point (lat0 lon0 bearing speed t : Q) : Q * Q :=
  let p := dest lat0 lon0 bearing (speed * (t / 60)) in (lat p, lon p).

(** Modelled from the spec: the InvalidInput kinds of a threat record,
    "malformed coordinates out of range, negative speed/duration,
    non-finite numeric fields". *)
Definition non_finite (x : pyfloat) : bool := negb (is_finite x).

(** Modelled from the spec: finite coordinates outside the GeoPoint
    ranges. *)
Definition out_of_range (lat lon : pyfloat) : bool :=
  match lat, lon with
  | Fin a, Fin b => negb (in_range a b)
  | _, _ => false
  end.

(** Modelled from the spec: a negative speed or duration. *)
Definition negative (x : pyfloat) : bool := pylt x (Fin 0).

(** Modelled from the spec: a threat record that is invalid input. *)
Definition invalid_input (t : Raw.t) : bool :=
  non_finite (Raw.origin_lat t) || non_finite (Raw.origin_lon t)
  || non_finite (Raw.bearing_deg t) || non_finite (Raw.speed_kmh t)
  || non_finite (Raw.duration_min t)
  || out_of_range (Raw.origin_lat t) (Raw.origin_lon t)
  || negative (Raw.speed_kmh t) || negative (Raw.duration_min t).

(* ------------------------------------------------------------------ *)
(** ** Milestone 2: distance and bearing to the base *)

(** The body of [for t in threats_raw] (lines 234-254). *)
Definition threat_of_raw (t : Raw.t) : result Threat.t :=
  dist_to_base <- haversine_km (Raw.origin_lat t) (Raw.origin_lon t)
                               (Fin BASE_LAT) (Fin BASE_LON) ;;
  bearing_to_base <- initial_bearing_deg (Raw.origin_lat t) (Raw.origin_lon t)
                                         (Fin BASE_LAT) (Fin BASE_LON) ;;
  Ok (Threat.mk (Raw.id t) (Raw.type t)
                (Raw.origin_lat t) (Raw.origin_lon t) (Raw.bearing_deg t)
                (Raw.speed_kmh t) (Raw.duration_min t)
                (round2 dist_to_base) (round2 bearing_to_base)).

(** Lines 233-263: the loop, then [min(threats, key=...)] and
    [max(threats, key=...)] for the closest and farthest threat, which
    raise ValueError on an empty list. *)
Definition milestone2 (threats_raw : list Raw.t) : result (list Threat.t) :=
  threats <- mapM threat_of_raw threats_raw ;;
  match threats with
  | [] => Raise ValueError
  | _ => Ok threats
  end.

(* ------------------------------------------------------------------ *)
(** ** Milestone 3: trajectories *)

(** [x * y] on floats: the machine's product of finite values, and the
    IEEE rules for infinities and NaN. *)
Definition pymul (x y : pyfloat) : pyfloat :=
  match x, y with
  | Fin a, Fin b => fmul a b
  | NaN, _ | _, NaN => NaN
  | Fin a, PInf | PInf, Fin a =>
      if Qlt_bool 0 a then PInf else if Qlt_bool a 0 then NInf else NaN
  | Fin a, NInf | NInf, Fin a =>
      if Qlt_bool 0 a then NInf else if Qlt_bool a 0 then PInf else NaN
  | PInf, PInf | NInf, NInf => PInf
  | PInf, NInf | NInf, PInf => NInf
  end.

(** [x / c] for a positive float constant [c] (the script divides by
    60.0): the machine's quotient of a finite value; an infinity or NaN
    is returned unchanged. *)
Definition pydiv_const (x : pyfloat) (c : Q) : pyfloat :=
  match x with
  | Fin a => fdiv a c
  | other => other
  end.

(** [LineString(coords)]: shapely refuses a line of a single point; no
    point at all gives the empty line. *)
Definition line_string (coords : list (Q * Q)) : result Geometry :=
  match coords with
  | [_] => Raise LineStringError
  | _ => Ok (LineString coords)
  end.

(** Line 321: the points in (lon, lat) order. *)
Definition line_coords (pts : list (Q * Q)) : list (Q * Q) :=
  map (fun p => (snd p, fst p)) pts.

(** The body of [for t in threats] (lines 297-323); [step_min=2.0]. *)
Definition add_trajectory (t : Threat.t) : result Track.t :=
  pts <- trajectory_points (Threat.origin_lat t) (Threat.origin_lon t)
                           (Threat.bearing_deg t) (Threat.speed_kmh t)
                           (Threat.duration_min t) (Fin 2) ;;
  let hours := pydiv_const (Threat.duration_min t) 60 in
  let total_distance_km := pyround2 (pymul (Threat.speed_kmh t) hours) in
  d <- destination_point (Threat.origin_lat t) (Threat.origin_lon t)
                         (Threat.bearing_deg t) total_distance_km ;;
  _ <- line_string (line_coords pts) ;;
  Ok (Track.mk t pts total_distance_km (lat d) (lon d) (List.length pts)).

Definition milestone3 (threats : list Threat.t) : result (list Track.t) :=
  mapM add_trajectory threats.


(** [t['trajectory_line']], the line that milestone 3 built from the
    points of a track. *)
Definition trajectory_line (t : Track.t) : Geometry :=
  LineString (line_coords (Track.trajectory_pts t)).

(** Milestones 2 and 3 in sequence: from the raw records to the enriched
    threat geometry. *)
Definition enrich (threats_raw : list Raw.t) : result (list Track.t) :=
  threats <- milestone2 threats_raw ;;
  milestone3 threats.

(* ------------------------------------------------------------------ *)
(** ** Milestone 4: intersections and proximity *)

(** Lines 378-380: [world_4326[world_4326.geometry.intersects(line)]],
    then the list of its [COUNTRY] column. *)
Definition intersected_countries
    (world_4326 : list (CountryRow Geometry)) (line : Geometry) : list string :=
  map COUNTRY (filter (fun c => intersects (geometry c) line) world_4326).

(** Lines 390-394: the running minimum, started at [float('inf')]. *)
Fixpoint min_dist_loop (pts : list (Q * Q)) (min_dist : pyfloat) : result pyfloat :=
  match pts with
  | [] => Ok min_dist
  | (lat, lon) :: rest =>
      d <- haversine_km (Fin lat) (Fin lon) (Fin BASE_LAT) (Fin BASE_LON) ;;
      min_dist_loop rest (if pylt (Fin d) min_dist then Fin d else min_dist)
  end.

(** The distances a brute-force recomputation looks at: from every sample
    to the base. *)
Definition base_distances (pts : list (Q * Q)) : list Q :=
  map (fun p => hav (fst p) (snd p) BASE_LAT BASE_LON) pts.

(** [m] is the minimum of the list [ds]. *)
Definition is_minimum (m : Q) (ds : list Q) : Prop :=
  In m ds /\ forall d, In d ds -> m <= d.

(** Lines 395-396: the pair of [t['min_dist_to_base_km']] and
    [t['passes_near_base']]. *)
Definition proximity (t : Track.t) : result (pyfloat * bool) :=
  min_dist <- min_dist_loop (Track.trajectory_pts t) PInf ;;
  Ok (pyround2 min_dist, pyle min_dist (Fin BASE_PROXIMITY_KM)).

(* ------------------------------------------------------------------ *)
(** ** Drawing helpers: the style of a threat *)

(** Lines 143 and 171: [threat_styles.get(t['type'], {'color': 'gray'})],
    then [style['color']]. *)
Definition marker_style (threat_styles : pydict Style) (type : string) : Style :=
  dict_get threat_styles type gray_style.

Definition marker_color (threat_styles : pydict Style) (type : string) : result string :=
  Ok (style_color (marker_style threat_styles type)).

(* ------------------------------------------------------------------ *)
(** ** Milestone 5: damage zones *)

(** Lines 479-488: one endpoint row per threat;
    [THREAT_STYLES[t['type']]] raises KeyError for an unknown type. *)
Definition endpoint_row (t : Track.t) : result (Endpoint.t Geometry) :=
  style <- dict_index THREAT_STYLES (Track.type t) ;;
  buffer_km <- style_index "buffer_km" (style_buffer_km style) ;;
  severity <- style_index "severity" (style_severity style) ;;
  Ok (Endpoint.mk (Track.id t) (Track.type t) buffer_km severity
                  (style_color style)
                  (Point (Track.dest_lon t) (Track.dest_lat t))).

Definition endpoint_data (threats : list Track.t) : result (list (Endpoint.t Geometry)) :=
  mapM endpoint_row threats.

(** Lines 493-509: every endpoint is replaced by its damage zone. *)
Definition buffer_row (row : Endpoint.t Geometry) : Endpoint.t Geometry :=
  Endpoint.mk (Endpoint.id row) (Endpoint.type row) (Endpoint.buffer_km row)
              (Endpoint.severity row) (Endpoint.color row)
              (damage_zone (Endpoint.geometry row) (Endpoint.buffer_km row)).

Definition buffers_4326 (endpoints : list (Endpoint.t Geometry)) : list (Endpoint.t Geometry) :=
  map buffer_row endpoints.

(** Line 522: the countries whose polygon intersects the damage zone. *)
Definition affected (world_4326 : list (CountryRow Geometry)) (buf_row : Endpoint.t Geometry)
    : list (CountryRow Geometry) :=
  filter (fun c => intersects (geometry c) (Endpoint.geometry buf_row)) world_4326.

(** Lines 533-551: the records appended for one buffer row. *)
Definition records_of_row (world_4326 : list (CountryRow Geometry)) (buf_row : Endpoint.t Geometry)
    : list DamageRecord :=
  let rows := affected world_4326 buf_row in
  if (0 <? List.length rows)%nat
  then map (fun country_row =>
              mkDamage (COUNTRY country_row) (Endpoint.id buf_row) (Endpoint.type buf_row)
                       (Endpoint.severity buf_row) (Endpoint.buffer_km buf_row))
           rows
  else [ mkDamage OCEAN (Endpoint.id buf_row) (Endpoint.type buf_row)
                  (Endpoint.severity buf_row) (Endpoint.buffer_km buf_row) ].

(** Lines 518-551: the loop over [buffers_4326.iterrows()]. *)
Definition damage_records (world_4326 : list (CountryRow Geometry))
    (buffers : list (Endpoint.t Geometry)) : list DamageRecord :=
  flat_map (records_of_row world_4326) buffers.

(* ------------------------------------------------------------------ *)
(** ** The country-level assessment *)

(** Lines 558-570: one summary row per distinct value of the [country]
    column, in sorted order.  An empty [damage_df] has no [country]
    column, so [damage_df['country']] raises KeyError. *)
Definition summary_row (damage_df : list DamageRecord) (c : string) : result SummaryRow :=
  let rows := filter (fun r => String.eqb (country r) c) damage_df in
  worst <- py_max_key severity_rank (map severity rows) ;;
  let types := join ", " (sorted (unique (map threat_type rows))) in
  let threat_ids := join ", " (sorted (unique (map threat_id rows))) in
  Ok (mkSummary c threat_ids types worst).

Definition country_summary (damage_df : list DamageRecord) : result (list SummaryRow) :=
  match damage_df with
  | [] => Raise (KeyError "country")
  | _ => mapM (summary_row damage_df) (sorted (unique (map country damage_df)))
  end.

(** Line 575: [len(summary_df)], printed as the total number of countries
    in damage zones. *)
Definition total_countries (summary_df : list SummaryRow) : nat := List.length summary_df.

(** Line 582: the countries highlighted on the final map,
    [damage_df[damage_df['country'] != 'Ocean (no land)']['country']]
    (a set in the script; here its elements in row order). *)
Definition damage_countries (damage_df : list DamageRecord) : list string :=
  map country (filter (fun r => negb (String.eqb (country r) OCEAN)) damage_df).

(** Milestone 5 from the enriched threats to the country table. *)
Definition assessment (world_4326 : list (CountryRow Geometry)) (threats : list Track.t)
    : result (list SummaryRow) :=
  endpoints <- endpoint_data threats ;;
  country_summary (damage_records world_4326 (buffers_4326 endpoints)).

(** The records of [damage_records] that carry a given threat id. *)
Definition records_of_threat (t_id : string) (records : list DamageRecord) : list DamageRecord :=
  filter (fun r => String.eqb (threat_id r) t_id) records.

(** The record a row yields for one country name, and the ocean record. *)
Definition record_for (buf_row : Endpoint.t Geometry) (name : string) : DamageRecord :=
  mkDamage name (Endpoint.id buf_row) (Endpoint.type buf_row)
           (Endpoint.severity buf_row) (Endpoint.buffer_km buf_row).

(** A severity label that [severity_order] ranks. *)
Definition ranked (s : string) : Prop := In s (map fst severity_order).

(* ------------------------------------------------------------------ *)
(** ** Reports: closest and farthest threat *)

(** [min(l, key=key)] with float keys: a later element replaces the
    current one only when its key is strictly smaller. *)
Definition min_step_float {A : Type} (key : A -> Q) (best y : A) : A :=
  if Qlt_bool (key y) (key best) then y else best.

Definition py_min_float {A : Type} (key : A -> Q) (l : list A) : result A :=
  match l with
  | [] => Raise ValueError
  | x :: l' => Ok (fold_left (min_step_float key) l' x)
  end.

(** [max(l, key=key)] with float keys: a later element replaces the
    current one only when its key is strictly greater. *)
Definition max_step_float {A : Type} (key : A -> Q) (best y : A) : A :=
  if Qlt_bool (key best) (key y) then y else best.

Definition py_max_float {A : Type} (key : A -> Q) (l : list A) : result A :=
  match l with
  | [] => Raise ValueError
  | x :: l' => Ok (fold_left (max_step_float key) l' x)
  end.

(** Lines 260-261: [min(threats, key=lambda t: t['dist_to_base_km'])] and
    [max(threats, key=lambda t: t['dist_to_base_km'])]. *)
Definition closest (threats : list Threat.t) : result Threat.t :=
  py_min_float Threat.dist_to_base_km threats.

Definition farthest (threats : list Threat.t) : result Threat.t :=
  py_max_float Threat.dist_to_base_km threats.

(* ------------------------------------------------------------------ *)
(** ** Reports: the affected countries of milestone 4 *)

(** [s.update(names)] on a set of strings.  The set is kept as a list
    without duplicates; the script reads it through membership, [len]
    and [sorted] only. *)
Definition set_add (s : list string) (name : string) : list string :=
  if existsb (String.eqb name) s then s else s ++ [name].

Definition set_update (s names : list string) : list string :=
  fold_left set_add names s.

(** Lines 374-381: the union, over the threats, of their intersected
    countries. *)
Definition all_intersected_countries
    (world_4326 : list (CountryRow Geometry)) (threats : list Track.t) : list string :=
  fold_left (fun s t => set_update s (intersected_countries world_4326 (trajectory_line t)))
            threats [].

(** [world_4326['COUNTRY'].isin(names)] on one row. *)
Definition isin (names : list string) (c : CountryRow Geometry) : bool :=
  existsb (String.eqb (COUNTRY c)) names.

(** Lines 406-407: the rows drawn as affected and as unaffected. *)
Definition intersected_gdf (world_4326 : list (CountryRow Geometry)) (names : list string)
    : list (CountryRow Geometry) :=
  filter (isin names) world_4326.

Definition non_intersected_gdf (world_4326 : list (CountryRow Geometry)) (names : list string)
    : list (CountryRow Geometry) :=
  filter (fun c => negb (isin names c)) world_4326.

(* ------------------------------------------------------------------ *)
(** ** Reports: the damage zone of each threat *)

(** Lines 528-531: the first threat whose id is [t_id] gets the key
    ['damage_zone_countries']; the loop stops there.  A threat is paired
    with the value of that key, [None] while the key is absent. *)
Fixpoint assign_damage_zone (t_id : string) (names : list string)
    (threats : list (Track.t * option (list string)))
    : list (Track.t * option (list string)) :=
  match threats with
  | [] => []
  | (t, zone) :: rest =>
      if String.eqb (Track.id t) t_id
      then (t, Some names) :: rest
      else (t, zone) :: assign_damage_zone t_id names rest
  end.

(** Lines 520-531, over all buffer rows. *)
Definition damage_zone_countries
    (world_4326 : list (CountryRow Geometry))
    (buffers : list (Endpoint.t Geometry)) (threats : list Track.t)
    : list (Track.t * option (list string)) :=
  fold_left (fun st buf_row =>
               assign_damage_zone (Endpoint.id buf_row)
                                  (map COUNTRY (affected world_4326 buf_row)) st)
            buffers (map (fun t => (t, None)) threats).

(** Lines 692-693: [dmg = t.get('damage_zone_countries', [])] and the
    text printed after "Damage Zone:". *)
Definition damage_zone_text (zone : option (list string)) : string :=
  let dmg := match zone with Some names => names | None => [] end in
  match dmg with
  | [] => "Ocean only"
  | _ => join ", " dmg
  end.

(* ------------------------------------------------------------------ *)
(** ** Reports: threats by type *)

(** [d[k] = v]: the value of an existing key is replaced in place, a new
    key is appended. *)
Fixpoint dict_set {V : Type} (d : pydict V) (k : string) (v : V) : pydict V :=
  match d with
  | [] => [(k, v)]
  | (k', v') :: d' =>
      if String.eqb k' k then (k', v) :: d' else (k', v') :: dict_set d' k v
  end.

(** Lines 670-672: [type_counts[t["type"]] = type_counts.get(t["type"], 0) + 1]
    for every threat. *)
Definition count_type (counts : pydict Z) (t : Track.t) : pydict Z :=
  dict_set counts (Track.type t) (dict_get counts (Track.type t) 0 + 1)%Z.

Definition type_counts (threats : list Track.t) : pydict Z :=
  fold_left count_type threats [].

(** The sum of the values of a dictionary of counts. *)
Definition total_count (counts : pydict Z) : Z :=
  fold_right (fun kv acc => (snd kv + acc)%Z) 0%Z counts.

(** The number of threats of a type. *)
Definition threats_of_type (type : string) (threats : list Track.t) : nat :=
  List.length (filter (fun t => String.eqb (Track.type t) type) threats).

(* ================================================================== *)
(** * Facts about the Python helpers *)
(* ================================================================== *)

Lemma bind_ok_inv {A B : Type} (m : result A) (k : A -> result B) (b : B) :
  bind m k = Ok b -> exists a, m = Ok a /\ k a = Ok b.
Proof.
  destruct m as [a | e]; simpl; intro H; [eauto | discriminate].
Qed.

Lemma mapM_ok_map {A B : Type} (f : A -> result B) (g : A -> B) (l : list A) :
  (forall x, In x l -> f x = Ok (g x)) -> mapM f l = Ok (map g l).
Proof.
  induction l as [| x l IH]; intro H; simpl; [reflexivity |].
  rewrite (H x (or_introl eq_refl)). simpl.
  rewrite IH by (intros y Hy; apply H; right; exact Hy).
  reflexivity.
Qed.

Lemma mapM_ok_inv {A B : Type} (f : A -> result B) (l : list A) (ys : list B) :
  mapM f l = Ok ys -> Forall2 (fun x y => f x = Ok y) l ys.
Proof.
  revert ys. induction l as [| x l IH]; simpl; intros ys H.
  - injection H as <-. constructor.
  - apply bind_ok_inv in H. destruct H as [y [Hy H]].
    apply bind_ok_inv in H. destruct H as [ys' [Hys H]].
    injection H as <-. constructor; auto.
Qed.

(** A loop whose every exception is [e] and one of whose iterations raises
    raises [e]. *)
Lemma mapM_raise {A B : Type} (f : A -> result B) (e : error) (l : list A) (x : A) :
  (forall y e', In y l -> f y = Raise e' -> e' = e) ->
  In x l -> f x = Raise e -> mapM f l = Raise e.
Proof.
  induction l as [| y l IH]; intros Hall Hin Hx; [destruct Hin |].
  simpl. destruct (f y) as [b | e'] eqn:Hy; simpl.
  - destruct Hin as [-> | Hin]; [congruence |].
    rewrite IH; auto. intros z e'' Hz. apply Hall. right. exact Hz.
  - f_equal. apply (Hall y); [left; reflexivity | exact Hy].
Qed.

(** *** [unique] *)

Lemma In_unique (l : list string) (x : string) : In x (unique l) <-> In x l.
Proof.
  induction l as [| y l IH]; simpl; [tauto |].
  rewrite filter_In, IH, negb_true_iff, String.eqb_neq.
  destruct (string_dec y x); intuition congruence.
Qed.

Lemma NoDup_unique (l : list string) : NoDup (unique l).
Proof.
  induction l as [| y l IH]; simpl; constructor.
  - rewrite filter_In, negb_true_iff, String.eqb_neq. intros [_ H]. congruence.
  - apply NoDup_filter. exact IH.
Qed.

(** *** The order of [sorted] *)

Lemma leb_iff (a b : string) :
  String.leb a b = true <-> a = b \/ String_as_OT.lt a b.
Proof.
  unfold String.leb.
  destruct (String.compare a b) eqn:Hc; split; intro H; try reflexivity; try discriminate.
  - left. apply String.compare_eq_iff. exact Hc.
  - right. apply String_as_OT.cmp_lt. exact Hc.
  - exfalso. destruct H as [-> | H].
    + assert (String.compare b b = Eq) by (apply String_as_OT.cmp_eq; reflexivity).
      congruence.
    + apply String_as_OT.cmp_lt in H. unfold String_as_OT.cmp in H. congruence.
Qed.

Lemma leb_trans (a b c : string) :
  String.leb a b = true -> String.leb b c = true -> String.leb a c = true.
Proof.
  rewrite !leb_iff. intros [-> | H1] [-> | H2]; auto.
  right. eapply String_as_OT.lt_trans; eassumption.
Qed.

Lemma leb_false (a b : string) : String.leb a b = false -> String.leb b a = true.
Proof.
  intro H. destruct (String.leb_total a b) as [H' | H']; congruence.
Qed.

Lemma In_insert_sorted (x y : string) (l : list string) :
  In y (insert_sorted x l) <-> y = x \/ In y l.
Proof.
  induction l as [| z l IH]; simpl.
  - intuition.
  - destruct (String.leb x z); simpl; [intuition | rewrite IH; intuition].
Qed.

Lemma In_sorted (l : list string) (x : string) : In x (sorted l) <-> In x l.
Proof.
  induction l as [| y l IH]; simpl; [tauto |].
  rewrite In_insert_sorted, IH. intuition.
Qed.

Lemma NoDup_insert_sorted (x : string) (l : list string) :
  ~ In x l -> NoDup l -> NoDup (insert_sorted x l).
Proof.
  induction l as [| z l IH]; simpl; intros Hx Hl.
  - constructor; [tauto | constructor].
  - destruct (String.leb x z).
    + constructor; [simpl; tauto | exact Hl].
    + inversion Hl; subst. constructor.
      * rewrite In_insert_sorted. intuition.
      * apply IH; [tauto | assumption].
Qed.

Lemma NoDup_sorted (l : list string) : NoDup l -> NoDup (sorted l).
Proof.
  induction 1 as [| x l Hx Hl IH]; simpl; [constructor |].
  apply NoDup_insert_sorted; [rewrite In_sorted; exact Hx | exact IH].
Qed.

Lemma StronglySorted_insert (x : string) (l : list string) :
  StronglySorted string_le l -> StronglySorted string_le (insert_sorted x l).
Proof.
  induction 1 as [| z l Hl IH Hz]; simpl.
  - constructor; constructor.
  - destruct (String.leb x z) eqn:Hxz.
    + constructor; [constructor; assumption |].
      constructor; [exact Hxz |].
      eapply Forall_impl; [| exact Hz].
      intros a Ha. eapply leb_trans; eassumption.
    + constructor; [exact IH |].
      apply Forall_forall. intros a Ha. apply In_insert_sorted in Ha.
      destruct Ha as [-> | Ha]; [apply leb_false; exact Hxz |].
      rewrite Forall_forall in Hz. apply Hz. exact Ha.
Qed.

Lemma StronglySorted_sorted (l : list string) : StronglySorted string_le (sorted l).
Proof.
  induction l as [| x l IH]; simpl; [constructor | apply StronglySorted_insert; exact IH].
Qed.

(** Two duplicate-free sorted lists with the same elements are equal. *)
Lemma sorted_canonical (l1 l2 : list string) :
  StronglySorted string_le l1 -> StronglySorted string_le l2 -> NoDup l1 -> NoDup l2 ->
  (forall x, In x l1 <-> In x l2) -> l1 = l2.
Proof.
  intros S1. revert l2.
  induction S1 as [| a l1 S1 IH Ha]; intros l2 S2 N1 N2 Hin.
  - destruct l2 as [| b l2]; [reflexivity |].
    exfalso. apply (proj2 (Hin b)). left. reflexivity.
  - destruct l2 as [| b l2].
    + exfalso. apply (proj1 (Hin a)). left. reflexivity.
    + inversion S2 as [| ? ? S2' Hb]; subst.
      inversion N1 as [| ? ? Na N1']; subst.
      inversion N2 as [| ? ? Nb N2']; subst.
      rewrite Forall_forall in Ha, Hb.
      assert (Hab : a = b).
      { destruct (proj1 (Hin a) (or_introl eq_refl)) as [E | E]; [auto |].
        destruct (proj2 (Hin b) (or_introl eq_refl)) as [E' | E']; [auto |].
        apply String.leb_antisym; [apply Ha; exact E' | apply Hb; exact E]. }
      subst b. f_equal. apply IH; auto.
      intro x. split; intro Hx.
      * destruct (proj1 (Hin x) (or_intror Hx)) as [E | E]; [subst; contradiction | exact E].
      * destruct (proj2 (Hin x) (or_intror Hx)) as [E | E]; [subst; contradiction | exact E].
Qed.

(** [sorted(unique(l))] depends on the set of values of [l] only. *)
Lemma sorted_unique_ext (l1 l2 : list string) :
  (forall x, In x l1 <-> In x l2) -> sorted (unique l1) = sorted (unique l2).
Proof.
  intro H. apply sorted_canonical.
  - apply StronglySorted_sorted.
  - apply StronglySorted_sorted.
  - apply NoDup_sorted, NoDup_unique.
  - apply NoDup_sorted, NoDup_unique.
  - intro x. rewrite !In_sorted, !In_unique. apply H.
Qed.

Lemma mapM_ext {A B : Type} (f g : A -> result B) (l : list A) :
  (forall x, In x l -> f x = g x) -> mapM f l = mapM g l.
Proof.
  induction l as [| x l IH]; intro H; simpl; [reflexivity |].
  rewrite (H x (or_introl eq_refl)), IH; [reflexivity |].
  intros y Hy. apply H. right. exact Hy.
Qed.

Lemma Forall2_In_r {A B : Type} (R : A -> B -> Prop) (l : list A) (ys : list B) (y : B) :
  Forall2 R l ys -> In y ys -> exists x, In x l /\ R x y.
Proof.
  induction 1 as [| x y' l ys Hxy _ IH]; intro Hin; [destruct Hin |].
  destruct Hin as [<- | Hin].
  - exists x. split; [left; reflexivity | exact Hxy].
  - destruct (IH Hin) as [x' [Hx' HR]]. exists x'. split; [right |]; assumption.
Qed.

Lemma Forall2_In_l {A B : Type} (R : A -> B -> Prop) (l : list A) (ys : list B) (x : A) :
  Forall2 R l ys -> In x l -> exists y, In y ys /\ R x y.
Proof.
  induction 1 as [| x' y l ys Hxy _ IH]; intro Hin; [destruct Hin |].
  destruct Hin as [<- | Hin].
  - exists y. split; [left; reflexivity | exact Hxy].
  - destruct (IH Hin) as [y' [Hy' HR]]. exists y'. split; [right |]; assumption.
Qed.

Lemma Permutation_filter {A : Type} (p : A -> bool) (l l' : list A) :
  Permutation l l' -> Permutation (filter p l) (filter p l').
Proof.
  induction 1 as [| x l l' _ IH | x y l | l l' l'' _ IH1 _ IH2]; simpl.
  - constructor.
  - destruct (p x); [constructor |]; exact IH.
  - destruct (p x), (p y); try apply Permutation_refl. apply perm_swap.
  - eapply Permutation_trans; eassumption.
Qed.

(** *** [max] with a key *)

Lemma max_step_cases {A : Type} (key : A -> Z) (x y : A) :
  max_step key x y = x \/ max_step key x y = y.
Proof. unfold max_step. destruct (key x <? key y)%Z; auto. Qed.

Lemma max_step_ge {A : Type} (key : A -> Z) (x y : A) :
  (key x <= key (max_step key x y) /\ key y <= key (max_step key x y))%Z.
Proof.
  unfold max_step. destruct (key x <? key y)%Z eqn:E;
    [apply Z.ltb_lt in E | apply Z.ltb_ge in E]; lia.
Qed.

Lemma fold_max_In {A : Type} (key : A -> Z) (l : list A) (x : A) :
  In (fold_left (max_step key) l x) (x :: l).
Proof.
  revert x. induction l as [| y l IH]; intro x; simpl; [left; reflexivity |].
  destruct (IH (max_step key x y)) as [H | H]; [| right; right; exact H].
  destruct (max_step_cases key x y) as [E | E]; rewrite E in *; auto.
Qed.

Lemma fold_max_ge_init {A : Type} (key : A -> Z) (l : list A) (x : A) :
  (key x <= key (fold_left (max_step key) l x))%Z.
Proof.
  revert x. induction l as [| y l IH]; intro x; simpl; [lia |].
  specialize (IH (max_step key x y)).
  pose proof (max_step_ge key x y). lia.
Qed.

Lemma fold_max_ge {A : Type} (key : A -> Z) (l : list A) (x y : A) :
  In y (x :: l) -> (key y <= key (fold_left (max_step key) l x))%Z.
Proof.
  revert x. induction l as [| z l IH]; intros x Hin.
  - destruct Hin as [<- | []]. simpl. lia.
  - simpl. pose proof (fold_max_ge_init key l (max_step key x z)) as H.
    pose proof (max_step_ge key x z) as H'.
    destruct Hin as [<- | [<- | Hin]]; [lia | lia |].
    apply IH. right. exact Hin.
Qed.

Lemma py_max_key_spec {A : Type} (key : A -> Z) (l : list A) (w : A) :
  py_max_key key l = Ok w ->
  In w l /\ forall y, In y l -> (key y <= key w)%Z.
Proof.
  destruct l as [| x l]; simpl; intro H; [discriminate |].
  injection H as <-. split; [apply fold_max_In | apply fold_max_ge].
Qed.

Lemma py_max_key_nonempty {A : Type} (key : A -> Z) (l : list A) :
  l <> [] -> exists w, py_max_key key l = Ok w.
Proof.
  destruct l as [| x l]; [congruence | simpl; eauto].
Qed.

(** When the key separates the elements, the maximum does not depend on
    their order. *)
Lemma py_max_key_perm {A : Type} (key : A -> Z) (l l' : list A) :
  (forall a b, In a l -> In b l -> key a = key b -> a = b) ->
  Permutation l l' -> py_max_key key l = py_max_key key l'.
Proof.
  intros Hinj HP.
  destruct l as [| x l].
  - apply Permutation_nil in HP. subst. reflexivity.
  - destruct l' as [| x' l'].
    + apply Permutation_sym, Permutation_nil in HP. discriminate.
    + destruct (py_max_key_nonempty key (x :: l)) as [w Hw]; [discriminate |].
      destruct (py_max_key_nonempty key (x' :: l')) as [w' Hw']; [discriminate |].
      rewrite Hw, Hw'. f_equal.
      apply py_max_key_spec in Hw. destruct Hw as [Hin Hmax].
      apply py_max_key_spec in Hw'. destruct Hw' as [Hin' Hmax'].
      apply Hinj; [exact Hin | eapply Permutation_in; [apply Permutation_sym; exact HP | exact Hin'] |].
      apply Z.le_antisymm.
      * apply Hmax'. eapply Permutation_in; eassumption.
      * apply Hmax. eapply Permutation_in; [apply Permutation_sym; exact HP | exact Hin'].
Qed.

(** *** The severity rank *)

Lemma severity_rank_values :
  severity_rank "Critical" = 4%Z /\ severity_rank "Severe" = 3%Z /\
  severity_rank "High" = 2%Z /\ severity_rank "Moderate" = 1%Z.
Proof. repeat split. Qed.

Lemma ranked_cases (s : string) :
  ranked s -> s = "Critical"%string \/ s = "Severe"%string \/
              s = "High"%string \/ s = "Moderate"%string.
Proof.
  unfold ranked. simpl. intuition.
Qed.

Lemma severity_rank_inj (a b : string) :
  ranked a -> ranked b -> severity_rank a = severity_rank b -> a = b.
Proof.
  intros Ha Hb.
  apply ranked_cases in Ha. apply ranked_cases in Hb.
  destruct Ha as [-> | [-> | [-> | ->]]];
    destruct Hb as [-> | [-> | [-> | ->]]];
    vm_compute; intro H; try reflexivity; discriminate.
Qed.

(** *** [country_summary] *)

Lemma summary_row_perm (rs rs' : list DamageRecord) (c : string) :
  Forall (fun r => ranked (severity r)) rs -> Permutation rs rs' ->
  summary_row rs c = summary_row rs' c.
Proof.
  intros Hrk HP. unfold summary_row.
  pose proof (Permutation_filter (fun r => String.eqb (country r) c) _ _ HP) as HF.
  set (rows := filter _ rs) in *. set (rows' := filter _ rs') in *.
  assert (Hmax : py_max_key severity_rank (map severity rows)
                 = py_max_key severity_rank (map severity rows')).
  { apply py_max_key_perm; [| apply Permutation_map; exact HF].
    rewrite Forall_forall in Hrk.
    intros a b Ha Hb. apply in_map_iff in Ha, Hb.
    destruct Ha as [ra [<- Hra]]. destruct Hb as [rb [<- Hrb]].
    apply filter_In in Hra, Hrb.
    apply severity_rank_inj; apply Hrk; tauto. }
  rewrite Hmax.
  rewrite (sorted_unique_ext (map threat_type rows) (map threat_type rows')).
  2:{ intro x. split; apply Permutation_in; [| apply Permutation_sym];
      apply Permutation_map; exact HF. }
  rewrite (sorted_unique_ext (map threat_id rows) (map threat_id rows')).
  2:{ intro x. split; apply Permutation_in; [| apply Permutation_sym];
      apply Permutation_map; exact HF. }
  reflexivity.
Qed.

Lemma country_summary_perm (rs rs' : list DamageRecord) :
  Forall (fun r => ranked (severity r)) rs -> Permutation rs rs' ->
  country_summary rs = country_summary rs'.
Proof.
  intros Hrk HP. unfold country_summary.
  destruct rs as [| r rs].
  { apply Permutation_nil in HP. subst. reflexivity. }
  destruct rs' as [| r' rs'].
  { apply Permutation_sym, Permutation_nil in HP. discriminate. }
  rewrite (sorted_unique_ext (map country (r :: rs)) (map country (r' :: rs'))).
  2:{ intro x. split; apply Permutation_in; [| apply Permutation_sym];
      apply Permutation_map; exact HP. }
  apply mapM_ext. intros c _. apply summary_row_perm; assumption.
Qed.

(** The rows of the table, one per country value of the records. *)
Lemma country_summary_rows (rs : list DamageRecord) (table : list SummaryRow) :
  country_summary rs = Ok table ->
  Forall2 (fun c row => summary_row rs c = Ok row)
          (sorted (unique (map country rs))) table.
Proof.
  unfold country_summary. destruct rs as [| r rs]; [discriminate |].
  apply mapM_ok_inv.
Qed.

Lemma summary_row_Country (rs : list DamageRecord) (c : string) (row : SummaryRow) :
  summary_row rs c = Ok row -> Country row = c.
Proof.
  unfold summary_row. intro H. apply bind_ok_inv in H.
  destruct H as [w [_ H]]. injection H as <-. reflexivity.
Qed.

Lemma summary_row_worst (rs : list DamageRecord) (c : string) (row : SummaryRow) :
  summary_row rs c = Ok row ->
  (exists r, In r rs /\ country r = c /\ severity r = Worst_Severity row) /\
  (forall r, In r rs -> country r = c ->
             (severity_rank (severity r) <= severity_rank (Worst_Severity row))%Z).
Proof.
  unfold summary_row. intro H. apply bind_ok_inv in H.
  destruct H as [w [Hw H]]. injection H as <-. simpl.
  apply py_max_key_spec in Hw. destruct Hw as [Hin Hmax]. split.
  - apply in_map_iff in Hin. destruct Hin as [r [Hr Hin]].
    apply filter_In in Hin. destruct Hin as [Hin Hc].
    apply String.eqb_eq in Hc. exists r. auto.
  - intros r Hr Hc. apply Hmax. apply in_map. apply filter_In.
    split; [exact Hr | apply String.eqb_eq; exact Hc].
Qed.

(** The table has a row for a country exactly when a record names it. *)
Lemma summary_rows_countries (rs : list DamageRecord) (cs : list string)
    (table : list SummaryRow) :
  Forall2 (fun c row => summary_row rs c = Ok row) cs table ->
  map Country table = cs.
Proof.
  induction 1 as [| c row cs table Hrow _ IH]; [reflexivity |].
  simpl. rewrite (summary_row_Country _ _ _ Hrow), IH. reflexivity.
Qed.

Lemma country_summary_countries (rs : list DamageRecord) (table : list SummaryRow) (c : string) :
  country_summary rs = Ok table ->
  (In c (map Country table) <-> In c (map country rs)).
Proof.
  intro H. apply country_summary_rows in H. split; intro Hc.
  - apply in_map_iff in Hc. destruct Hc as [row [<- Hrow]].
    destruct (Forall2_In_r _ _ _ _ H Hrow) as [c' [Hc' Hrow']].
    apply summary_row_Country in Hrow'. subst c'.
    rewrite In_sorted, In_unique in Hc'. exact Hc'.
  - assert (Hc' : In c (sorted (unique (map country rs))))
      by (rewrite In_sorted, In_unique; exact Hc).
    destruct (Forall2_In_l _ _ _ _ H Hc') as [row [Hrow Hrow']].
    apply summary_row_Country in Hrow'. subst c. apply in_map. exact Hrow.
Qed.

(** [country_summary] returns a table for every non-empty list of
    records. *)
Lemma country_summary_total (rs : list DamageRecord) :
  rs <> [] -> exists table, country_summary rs = Ok table.
Proof.
  intro Hne. unfold country_summary. destruct rs as [| r0 rs0]; [congruence |].
  set (rs := r0 :: rs0).
  assert (Hall : forall l, (forall c, In c l -> In c (map country rs)) ->
                           exists table, mapM (summary_row rs) l = Ok table).
  { induction l as [| c l IH]; intro Hl; [exists []; reflexivity |].
    destruct IH as [tb Htb]; [intros; apply Hl; right; assumption |].
    assert (Hc : In c (map country rs)) by (apply Hl; left; reflexivity).
    apply in_map_iff in Hc. destruct Hc as [r [Hrc Hr]].
    destruct (py_max_key_nonempty severity_rank
                (map severity (filter (fun r => String.eqb (country r) c) rs)))
      as [w Hw].
    { intro E. apply map_eq_nil in E.
      assert (Hin : In r (filter (fun r => String.eqb (country r) c) rs))
        by (apply filter_In; split; [exact Hr | apply String.eqb_eq; exact Hrc]).
      rewrite E in Hin. destruct Hin. }
    simpl. unfold summary_row at 1. rewrite Hw. simpl. rewrite Htb. simpl. eauto. }
  apply Hall. intros c Hc. rewrite In_sorted, In_unique in Hc. exact Hc.
Qed.


(** *** [damage_records] *)

Lemma records_of_row_eq (world : list (CountryRow Geometry)) (row : Endpoint.t Geometry) :
  records_of_row world row =
  match affected world row with
  | [] => [record_for row OCEAN]
  | rows => map (fun c => record_for row (COUNTRY c)) rows
  end.
Proof.
  unfold records_of_row, record_for.
  destruct (affected world row) as [| c rows]; reflexivity.
Qed.

Lemma records_of_row_id (world : list (CountryRow Geometry)) (row : Endpoint.t Geometry)
    (r : DamageRecord) :
  In r (records_of_row world row) -> threat_id r = Endpoint.id row.
Proof.
  rewrite records_of_row_eq.
  destruct (affected world row) as [| c rows]; intro H.
  - destruct H as [<- | []]. reflexivity.
  - apply in_map_iff in H. destruct H as [c' [<- _]]. reflexivity.
Qed.

Lemma records_of_row_severity (world : list (CountryRow Geometry)) (row : Endpoint.t Geometry)
    (r : DamageRecord) :
  In r (records_of_row world row) -> severity r = Endpoint.severity row.
Proof.
  rewrite records_of_row_eq.
  destruct (affected world row) as [| c rows]; intro H.
  - destruct H as [<- | []]. reflexivity.
  - apply in_map_iff in H. destruct H as [c' [<- _]]. reflexivity.
Qed.

Lemma filter_all {A : Type} (p : A -> bool) (l : list A) :
  (forall x, In x l -> p x = true) -> filter p l = l.
Proof.
  induction l as [| x l IH]; intro H; simpl; [reflexivity |].
  rewrite (H x (or_introl eq_refl)), IH; [reflexivity |].
  intros y Hy. apply H. right. exact Hy.
Qed.

Lemma filter_none {A : Type} (p : A -> bool) (l : list A) :
  (forall x, In x l -> p x = false) -> filter p l = [].
Proof.
  induction l as [| x l IH]; intro H; simpl; [reflexivity |].
  rewrite (H x (or_introl eq_refl)), IH; [reflexivity |].
  intros y Hy. apply H. right. exact Hy.
Qed.

Lemma records_of_threat_other (world : list (CountryRow Geometry))
    (buffers : list (Endpoint.t Geometry)) (t_id : string) :
  ~ In t_id (map Endpoint.id buffers) ->
  records_of_threat t_id (damage_records world buffers) = [].
Proof.
  intro Hid. apply filter_none. intros r Hr.
  apply in_flat_map in Hr. destruct Hr as [row [Hrow Hr]].
  apply records_of_row_id in Hr. apply String.eqb_neq. intro E.
  apply Hid. apply in_map_iff. exists row. split; [congruence | exact Hrow].
Qed.

Lemma records_of_threat_row (world : list (CountryRow Geometry))
    (buffers : list (Endpoint.t Geometry)) (row : Endpoint.t Geometry) :
  NoDup (map Endpoint.id buffers) -> In row buffers ->
  records_of_threat (Endpoint.id row) (damage_records world buffers)
  = records_of_row world row.
Proof.
  induction buffers as [| b bs IH]; intros Hnd Hin; [destruct Hin |].
  simpl in Hnd. inversion Hnd as [| ? ? Hb Hbs]; subst.
  unfold records_of_threat, damage_records. simpl. rewrite filter_app.
  destruct Hin as [-> | Hin].
  - rewrite filter_all.
    2:{ intros r Hr. apply String.eqb_eq. eapply records_of_row_id. exact Hr. }
    fold (damage_records world bs).
    fold (records_of_threat (Endpoint.id row) (damage_records world bs)).
    rewrite records_of_threat_other by exact Hb. apply app_nil_r.
  - rewrite filter_none.
    2:{ intros r Hr. apply String.eqb_neq. apply records_of_row_id in Hr.
        rewrite Hr. intro E. apply Hb. rewrite E. apply in_map. exact Hin. }
    simpl. apply IH; assumption.
Qed.

(** C3.  Among the damage records, those of one threat (threat ids being
    distinct) are: exactly one record, the ocean sentinel, when its damage
    zone intersects no country polygon; and exactly one record per
    intersected country polygon, in dataset order, when it intersects
    [k >= 1] of them. *)
Theorem damage_records_per_threat
    (world_4326 : list (CountryRow Geometry))
    (buffers : list (Endpoint.t Geometry)) (buf_row : Endpoint.t Geometry) :
  NoDup (map Endpoint.id buffers) ->
  In buf_row buffers ->
  (affected world_4326 buf_row = [] ->
     records_of_threat (Endpoint.id buf_row) (damage_records world_4326 buffers)
     = [record_for buf_row OCEAN]) /\
  (affected world_4326 buf_row <> [] ->
     records_of_threat (Endpoint.id buf_row) (damage_records world_4326 buffers)
     = map (fun c => record_for buf_row (COUNTRY c)) (affected world_4326 buf_row)) /\
  List.length (records_of_threat (Endpoint.id buf_row) (damage_records world_4326 buffers))
  = Nat.max 1 (List.length (affected world_4326 buf_row)).
Proof.
  intros Hnd Hin.
  rewrite (records_of_threat_row world_4326 buffers buf_row Hnd Hin).
  rewrite records_of_row_eq.
  destruct (affected world_4326 buf_row) as [| c rows].
  - repeat split; congruence.
  - repeat split; try congruence.
    rewrite length_map. simpl. reflexivity.
Qed.

(** *** [intersected_countries] *)

Lemma filter_keeps_distinct_keys {Row Key : Type} (keep : Row -> bool) (key : Row -> Key)
    (rows : list Row) :
  NoDup (map key rows) -> NoDup (map key (filter keep rows)).
Proof.
  intro Hnd. induction rows as [| row rest IH]; simpl in *; [constructor |].
  inversion Hnd as [| ? ? Hfresh Hrest]; subst.
  destruct (keep row); [| apply IH; exact Hrest].
  simpl. constructor; [| apply IH; exact Hrest].
  intro Hin. apply Hfresh. apply in_map_iff in Hin. destruct Hin as [other [Hkey Hin]].
  apply filter_In in Hin. destruct Hin as [Hin _].
  apply in_map_iff. exists other. split; [exact Hkey | exact Hin].
Qed.

Lemma intersected_countries_In (world : list (CountryRow Geometry)) (line : Geometry)
    (name : string) :
  In name (intersected_countries world line) <->
  exists c, In c world /\ COUNTRY c = name /\ intersects (geometry c) line = true.
Proof.
  unfold intersected_countries. rewrite in_map_iff. split.
  - intros [c [Hn Hc]]. apply filter_In in Hc. destruct Hc as [Hc Hi].
    exists c. split; [exact Hc | split; [exact Hn | exact Hi]].
  - intros [c [Hc [Hn Hi]]]. exists c. rewrite filter_In.
    split; [exact Hn | split; [exact Hc | exact Hi]].
Qed.

Lemma intersected_countries_cons (c : CountryRow Geometry)
    (rest : list (CountryRow Geometry)) (line : Geometry) :
  intersected_countries (c :: rest) line =
  if intersects (geometry c) line
  then COUNTRY c :: intersected_countries rest line
  else intersected_countries rest line.
Proof.
  unfold intersected_countries. simpl.
  destruct (intersects (geometry c) line); reflexivity.
Qed.

Lemma intersected_countries_app (front back : list (CountryRow Geometry)) (line : Geometry) :
  intersected_countries (front ++ back) line =
  intersected_countries front line ++ intersected_countries back line.
Proof.
  unfold intersected_countries. rewrite filter_app, map_app. reflexivity.
Qed.

(** One entry per intersecting polygon: a name occurs as often as
    polygons of that name intersect the line. *)
Lemma intersected_countries_count (world : list (CountryRow Geometry)) (line : Geometry)
    (name : string) :
  count_occ string_dec (intersected_countries world line) name =
  List.length (filter (fun c => String.eqb (COUNTRY c) name && intersects (geometry c) line)
                      world).
Proof.
  induction world as [| c rest IH]; [reflexivity |].
  rewrite intersected_countries_cons. cbn [filter].
  destruct (intersects (geometry c) line).
  - cbn [count_occ]. destruct (string_dec (COUNTRY c) name) as [E | E].
    + apply String.eqb_eq in E. rewrite E. simpl. rewrite IH. reflexivity.
    + apply String.eqb_neq in E. rewrite E. simpl. exact IH.
  - rewrite andb_false_r. exact IH.
Qed.

(** C7, as the code has it.  The line-intersection result is the list of
    the names of the polygons that intersect the path, in dataset order
    and with one entry per intersecting polygon.  For every dataset: the
    list is built row by row in the order of the dataset, and the result
    over two datasets put end to end is the two results put end to end;
    a name is in it exactly when a polygon of that name intersects the
    line, and it occurs as often as polygons of that name intersect;
    reordering the dataset reorders the list and leaves its elements the
    same; and when no polygon intersects, the result is the empty list.
    When the names of the dataset are distinct, the list has no
    duplicate. *)
Theorem intersected_countries_dataset_order
    (world world' : list (CountryRow Geometry)) (line : Geometry) :
  Permutation world world' ->
  intersected_countries [] line = [] /\
  (forall c rest,
      intersected_countries (c :: rest) line =
      if intersects (geometry c) line
      then COUNTRY c :: intersected_countries rest line
      else intersected_countries rest line) /\
  (forall front back,
      intersected_countries (front ++ back) line =
      intersected_countries front line ++ intersected_countries back line) /\
  (forall name,
      In name (intersected_countries world line) <->
      exists c, In c world /\ COUNTRY c = name /\ intersects (geometry c) line = true) /\
  (forall name,
      count_occ string_dec (intersected_countries world line) name =
      List.length (filter (fun c => String.eqb (COUNTRY c) name
                                    && intersects (geometry c) line) world)) /\
  Permutation (intersected_countries world line) (intersected_countries world' line) /\
  (forall name,
      In name (intersected_countries world line) <->
      In name (intersected_countries world' line)) /\
  ((forall c, In c world -> intersects (geometry c) line = false) ->
   intersected_countries world line = []) /\
  (NoDup (map COUNTRY world) -> NoDup (intersected_countries world line)).
Proof.
  intros HP.
  assert (HPi : Permutation (intersected_countries world line)
                            (intersected_countries world' line)).
  { unfold intersected_countries. apply Permutation_map, Permutation_filter. exact HP. }
  split; [reflexivity |].
  split; [intros c rest; apply intersected_countries_cons |].
  split; [intros front back; apply intersected_countries_app |].
  split; [intro name; apply intersected_countries_In |].
  split; [intro name; apply intersected_countries_count |].
  split; [exact HPi |].
  split; [intro name; split; apply Permutation_in; [| apply Permutation_sym]; exact HPi |].
  split.
  - intro Hnone. unfold intersected_countries.
    rewrite filter_none; [reflexivity | exact Hnone].
  - intro Hnd. apply filter_keeps_distinct_keys. exact Hnd.
Qed.

(** *** From the threats to the table *)

Lemma mapM_perm {A B : Type} (f : A -> result B) (l l' : list A) :
  Permutation l l' ->
  forall ys, mapM f l = Ok ys ->
             exists ys', mapM f l' = Ok ys' /\ Permutation ys ys'.
Proof.
  induction 1 as [| x l l' _ IH | x y l | l l' l'' _ IH1 _ IH2]; intros ys H.
  - exists ys. split; [exact H | apply Permutation_refl].
  - simpl in H. apply bind_ok_inv in H. destruct H as [b [Hb H]].
    apply bind_ok_inv in H. destruct H as [bs [Hbs H]]. injection H as <-.
    destruct (IH _ Hbs) as [bs' [Hbs' HP]].
    exists (b :: bs'). simpl. rewrite Hb, Hbs'. split; [reflexivity |].
    constructor. exact HP.
  - simpl in H. apply bind_ok_inv in H. destruct H as [b [Hb H]].
    apply bind_ok_inv in H. destruct H as [bs [H Hys]]. injection Hys as <-.
    apply bind_ok_inv in H. destruct H as [a [Ha H]].
    apply bind_ok_inv in H. destruct H as [rest [Hrest H]]. injection H as <-.
    exists (a :: b :: rest). simpl. rewrite Ha, Hb, Hrest. split; [reflexivity |].
    apply perm_swap.
  - destruct (IH1 _ H) as [ys' [H' HP1]]. destruct (IH2 _ H') as [ys'' [H'' HP2]].
    exists ys''. split; [exact H'' | eapply Permutation_trans; eassumption].
Qed.

Lemma THREAT_STYLES_severity (type : string) (style : Style) (s : string) :
  dict_index THREAT_STYLES type = Ok style ->
  style_index "severity" (style_severity style) = Ok s -> ranked s.
Proof.
  unfold THREAT_STYLES, full_style, ranked. cbn [dict_index].
  repeat (match goal with |- context [String.eqb ?a type] => destruct (String.eqb a type) end);
    intro H; try discriminate; injection H as <-; simpl;
    intro H; injection H as <-; tauto.
Qed.

Lemma endpoint_row_severity (t : Track.t) (row : Endpoint.t Geometry) :
  endpoint_row t = Ok row -> ranked (Endpoint.severity row).
Proof.
  unfold endpoint_row. intro H.
  apply bind_ok_inv in H. destruct H as [style [Hstyle H]].
  apply bind_ok_inv in H. destruct H as [km [_ H]].
  apply bind_ok_inv in H. destruct H as [s [Hs H]].
  injection H as <-. simpl. eapply THREAT_STYLES_severity; eassumption.
Qed.

(** Every record the script builds carries a ranked severity. *)
Lemma damage_records_ranked (world : list (CountryRow Geometry)) (threats : list Track.t)
    (endpoints : list (Endpoint.t Geometry)) :
  endpoint_data threats = Ok endpoints ->
  Forall (fun r => ranked (severity r))
         (damage_records world (buffers_4326 endpoints)).
Proof.
  intro H. apply mapM_ok_inv in H. apply Forall_forall. intros r Hr.
  apply in_flat_map in Hr. destruct Hr as [brow [Hbrow Hr]].
  apply records_of_row_severity in Hr. rewrite Hr.
  apply in_map_iff in Hbrow. destruct Hbrow as [row [<- Hrow]]. simpl.
  destruct (Forall2_In_r _ _ _ _ H Hrow) as [t [_ Ht]].
  eapply endpoint_row_severity. exact Ht.
Qed.

Lemma assessment_perm (world : list (CountryRow Geometry)) (threats threats' : list Track.t)
    (table : list SummaryRow) :
  Permutation threats threats' ->
  assessment world threats = Ok table -> assessment world threats' = Ok table.
Proof.
  intros HP H. unfold assessment in *.
  apply bind_ok_inv in H. destruct H as [eps [Heps H]].
  destruct (mapM_perm _ _ _ HP _ Heps) as [eps' [Heps' HPe]].
  unfold endpoint_data at 1. rewrite Heps'. simpl bind. rewrite <- H.
  symmetry. apply country_summary_perm.
  - eapply damage_records_ranked. exact Heps.
  - unfold damage_records, buffers_4326.
    apply Permutation_flat_map, Permutation_map. exact HPe.
Qed.

(** C1.  The country-level severity assessment is a reduction that does
    not depend on order.  Every non-empty set of records gives a table
    with exactly one row for each country that has a record, and no
    other row.  For records whose severities are labels of the rank
    table (every record the script builds, since severities come from
    THREAT_STYLES), any reordering of the records gives the same table;
    processing the threats in another order gives the same table; and
    the worst severity of each row is a severity of one of that
    country's records whose rank, under the fixed ranks Critical = 4 >
    Severe = 3 > High = 2 > Moderate = 1, is at least that of every
    record of the country. *)
Theorem country_summary_order_independent
    (world_4326 : list (CountryRow Geometry))
    (threats threats' : list Track.t) (rs rs' : list DamageRecord) :
  Forall (fun r => ranked (severity r)) rs ->
  Permutation rs rs' ->
  Permutation threats threats' ->
  (rs <> [] ->
   exists table,
     country_summary rs = Ok table /\
     country_summary rs' = Ok table /\
     (forall r, In r rs ->
                exists row, In row table /\ Country row = country r /\
                            (severity_rank (severity r)
                             <= severity_rank (Worst_Severity row))%Z) /\
     (forall row, In row table ->
                  exists r, In r rs /\ country r = Country row /\
                            severity r = Worst_Severity row) /\
     NoDup (map Country table)) /\
  country_summary rs = country_summary rs' /\
  (forall table,
      assessment world_4326 threats = Ok table ->
      assessment world_4326 threats' = Ok table) /\
  (forall table row,
      country_summary rs = Ok table -> In row table ->
      (exists r, In r rs /\ country r = Country row /\
                 severity r = Worst_Severity row) /\
      (forall r, In r rs -> country r = Country row ->
                 (severity_rank (severity r) <= severity_rank (Worst_Severity row))%Z)) /\
  severity_rank "Critical" = 4%Z /\ severity_rank "Severe" = 3%Z /\
  severity_rank "High" = 2%Z /\ severity_rank "Moderate" = 1%Z.
Proof.
  intros Hrk HP HPt.
  assert (Hworst : forall table row,
             country_summary rs = Ok table -> In row table ->
             (exists r, In r rs /\ country r = Country row /\
                        severity r = Worst_Severity row) /\
             (forall r, In r rs -> country r = Country row ->
                        (severity_rank (severity r)
                         <= severity_rank (Worst_Severity row))%Z)).
  { intros table row Htable Hrow.
    apply country_summary_rows in Htable.
    destruct (Forall2_In_r _ _ _ _ Htable Hrow) as [c [_ Hc]].
    pose proof (summary_row_Country _ _ _ Hc) as E. rewrite E.
    apply summary_row_worst. exact Hc. }
  assert (Hsame : country_summary rs = country_summary rs')
    by (apply country_summary_perm; assumption).
  split; [| split; [exact Hsame |
            split; [intros table; apply assessment_perm; exact HPt |
            split; [exact Hworst | apply severity_rank_values]]]].
  intro Hne. destruct (country_summary_total rs Hne) as [table Htable].
  exists table. split; [exact Htable |].
  split; [rewrite <- Hsame; exact Htable |].
  split; [| split].
  - intros r Hr.
    assert (Hc : In (country r) (map Country table)).
    { apply (country_summary_countries rs table (country r) Htable).
      apply in_map. exact Hr. }
    apply in_map_iff in Hc. destruct Hc as [row [Hrow Hin]].
    exists row. split; [exact Hin | split; [exact Hrow |]].
    destruct (Hworst table row Htable Hin) as [_ Hle].
    apply Hle; [exact Hr | symmetry; exact Hrow].
  - intros row Hrow. destruct (Hworst table row Htable Hrow) as [Hex _]. exact Hex.
  - apply country_summary_rows in Htable.
    rewrite (summary_rows_countries _ _ _ Htable).
    apply NoDup_sorted, NoDup_unique.
Qed.

(* ================================================================== *)
(** * Facts about the numbers *)
(* ================================================================== *)

Lemma Qlt_bool_iff (a b : Q) : Qlt_bool a b = true <-> a < b.
Proof.
  unfold Qlt_bool. rewrite negb_true_iff. split; intro H.
  - apply Qnot_le_lt. intro Hle. apply Qle_bool_iff in Hle. congruence.
  - destruct (Qle_bool b a) eqn:E; [| reflexivity].
    apply Qle_bool_iff in E. exfalso. apply (Qlt_not_le _ _ H E).
Qed.

Lemma Qlt_bool_false (a b : Q) : Qlt_bool a b = false <-> b <= a.
Proof.
  unfold Qlt_bool. rewrite negb_false_iff. apply Qle_bool_iff.
Qed.

(** [round_half_even] is within one half of its argument. *)
Lemma round_half_even_near (y : Q) :
  Qabs (inject_Z (round_half_even y) - y) <= 1 # 2.
Proof.
  unfold round_half_even.
  pose proof (Qfloor_le y) as Hlo. pose proof (Qlt_floor y) as Hhi.
  rewrite inject_Z_plus in Hhi. change (inject_Z 1) with 1 in Hhi.
  apply Qabs_Qle_condition.
  destruct (Qcompare (y - inject_Z (Qfloor y)) (1 # 2)) eqn:E.
  - apply Qeq_alt in E.
    destruct (Z.even (Qfloor y));
      [| rewrite inject_Z_plus; change (inject_Z 1) with 1]; split; lra.
  - apply Qlt_alt in E. split; lra.
  - apply Qgt_alt in E. rewrite inject_Z_plus. change (inject_Z 1) with 1.
    split; lra.
Qed.

(** [round(x, 2)] is within 0.005 of [x]. *)
Lemma round2_near (x : Q) : Qabs (round2 x - x) <= 1 # 200.
Proof.
  unfold round2. pose proof (round_half_even_near (x * 100)) as H.
  apply Qabs_Qle_condition in H. apply Qabs_Qle_condition.
  set (z := inject_Z (round_half_even (x * 100))) in *.
  assert (E : z / 100 == z * (1 # 100)) by (field).
  rewrite E. split; lra.
Qed.

(* ================================================================== *)
(** * The sampler *)
(* ================================================================== *)

Lemma step_cancel (step duration : Q) :
  0 < step -> duration / step * step == duration.
Proof. intro Hstep. field. intro E. rewrite E in Hstep. discriminate. Qed.

Lemma steps_nonneg (step duration : Q) :
  0 < step -> 0 <= duration -> (0 <= Qceiling (duration / step))%Z.
Proof.
  intros Hstep Hd. change 0%Z with (Qceiling 0). apply Qceiling_resp_le.
  apply Qle_shift_div_l; [exact Hstep | lra].
Qed.

(** The multiples of the step below index [ceil(duration / step)] lie
    before the duration, the others do not. *)
Lemma multiple_before (step duration : Q) (k : Z) :
  0 < step -> (k < Qceiling (duration / step))%Z -> inject_Z k * step < duration.
Proof.
  intros Hstep Hk. rewrite <- (step_cancel step duration Hstep).
  apply Qmult_lt_r; [exact Hstep |].
  apply Qle_lt_trans with (inject_Z (Qceiling (duration / step) - 1)).
  - rewrite <- Zle_Qle. lia.
  - apply Qceiling_lt.
Qed.

Lemma multiple_after (step duration : Q) (k : Z) :
  0 < step -> (Qceiling (duration / step) <= k)%Z -> duration <= inject_Z k * step.
Proof.
  intros Hstep Hk. rewrite <- (step_cancel step duration Hstep) at 1.
  apply Qmult_le_r; [exact Hstep |].
  apply Qle_trans with (inject_Z (Qceiling (duration / step))).
  - apply Qle_ceiling.
  - rewrite <- Zle_Qle. exact Hk.
Qed.

(** With more than [m] iterations left and [m] multiples still before the
    duration, the loop emits those multiples and then the duration. *)
Lemma times_from_enough (step duration : Q) (m : nat) :
  0 < step ->
  forall (k : Z) (fuel : nat),
    (k + Z.of_nat m = Qceiling (duration / step))%Z -> (m < fuel)%nat ->
    times_from fuel step duration k
    = map (fun i => inject_Z (k + Z.of_nat i) * step) (seq 0 m) ++ [duration].
Proof.
  intro Hstep.
  induction m as [| m IH]; intros k fuel Hk Hfuel;
    (destruct fuel as [| fuel]; [lia |]); simpl times_from.
  - assert (E : Qlt_bool (inject_Z k * step) duration = false).
    { apply Qlt_bool_false. apply multiple_after; [exact Hstep | lia]. }
    rewrite E. reflexivity.
  - assert (E : Qlt_bool (inject_Z k * step) duration = true).
    { apply Qlt_bool_iff. apply multiple_before; [exact Hstep | lia]. }
    rewrite E. rewrite (IH (k + 1)%Z fuel) by lia.
    change (seq 0 (S m)) with (0%nat :: seq 1 m).
    rewrite <- seq_shift. cbn [map app]. rewrite map_map.
    rewrite Z.add_0_r. f_equal. f_equal.
    apply map_ext. intro i. f_equal. f_equal. lia.
Qed.

Lemma sample_times_eq (step duration : Q) :
  0 < step -> 0 <= duration ->
  sample_times step duration
  = map (fun i => inject_Z (Z.of_nat i) * step)
        (seq 0 (Z.to_nat (Qceiling (duration / step)))) ++ [duration].
Proof.
  intros Hstep Hd. unfold sample_times.
  rewrite (times_from_enough step duration (Z.to_nat (Qceiling (duration / step))) Hstep).
  - reflexivity.
  - pose proof (steps_nonneg step duration Hstep Hd). lia.
  - lia.
Qed.

Lemma sample_times_length (step duration : Q) :
  0 < step -> 0 <= duration ->
  Z.of_nat (List.length (sample_times step duration))
  = (Qceiling (duration / step) + 1)%Z.
Proof.
  intros Hstep Hd.
  rewrite (sample_times_eq step duration Hstep Hd), length_app, length_map, length_seq.
  simpl. pose proof (steps_nonneg step duration Hstep Hd). lia.
Qed.

Lemma sample_times_nth (step duration : Q) (i : nat) :
  0 < step -> 0 <= duration ->
  (Z.of_nat i < Qceiling (duration / step))%Z ->
  nth_error (sample_times step duration) i = Some (inject_Z (Z.of_nat i) * step).
Proof.
  intros Hstep Hd Hi. rewrite (sample_times_eq step duration Hstep Hd).
  rewrite nth_error_app1 by (rewrite length_map, length_seq; lia).
  rewrite nth_error_map.
  rewrite nth_error_seq.
  destruct (Nat.ltb i (Z.to_nat (Qceiling (duration / step)))) eqn:E.
  - reflexivity.
  - apply Nat.ltb_ge in E. lia.
Qed.

Lemma sample_times_last (step duration : Q) :
  0 < step -> 0 <= duration ->
  nth_error (sample_times step duration) (Z.to_nat (Qceiling (duration / step)))
  = Some duration.
Proof.
  intros Hstep Hd. rewrite (sample_times_eq step duration Hstep Hd).
  rewrite nth_error_app2 by (rewrite length_map, length_seq; lia).
  rewrite length_map, length_seq, Nat.sub_diag. reflexivity.
Qed.

Lemma base_in_range : in_range BASE_LAT BASE_LON = true.
Proof. reflexivity. Qed.

Lemma geo_point_ok (a b : Q) :
  in_range a b = true -> geo_point (Fin a) (Fin b) = Ok (a, b).
Proof. intro H. unfold geo_point. simpl. rewrite H. reflexivity. Qed.

Lemma destination_point_ok (a b bearing distance : Q) :
  in_range a b = true ->
  destination_point (Fin a) (Fin b) (Fin bearing) (Fin distance)
  = Ok (dest a b bearing distance).
Proof.
  intro H. unfold destination_point. rewrite (geo_point_ok _ _ H). reflexivity.
Qed.

Lemma haversine_km_ok (a b : Q) :
  in_range a b = true ->
  haversine_km (Fin a) (Fin b) (Fin BASE_LAT) (Fin BASE_LON)
  = Ok (hav a b BASE_LAT BASE_LON).
Proof.
  intro H. unfold haversine_km.
  rewrite (geo_point_ok _ _ H), (geo_point_ok _ _ base_in_range). reflexivity.
Qed.

Lemma initial_bearing_deg_ok (a b : Q) :
  in_range a b = true ->
  initial_bearing_deg (Fin a) (Fin b) (Fin BASE_LAT) (Fin BASE_LON)
  = Ok (brg a b BASE_LAT BASE_LON).
Proof.
  intro H. unfold initial_bearing_deg.
  rewrite (geo_point_ok _ _ H), (geo_point_ok _ _ base_in_range). reflexivity.
Qed.

(** On valid input the sampler returns one sample per elapsed time. *)
Lemma trajectory_points_ok (lat0 lon0 bearing speed duration step : Q) :
  in_range lat0 lon0 = true -> 0 <= speed -> 0 <= duration ->
  trajectory_points (Fin lat0) (Fin lon0) (Fin bearing) (Fin speed)
                    (Fin duration) (Fin step)
  = Ok (map (sample_point lat0 lon0 bearing speed) (sample_times step duration)).
Proof.
  intros Hr Hs Hd. unfold trajectory_points.
  rewrite (geo_point_ok _ _ Hr). simpl.
  apply Qle_bool_iff in Hs, Hd. rewrite Hs, Hd. simpl.
  apply mapM_ok_map. intros t _.
  rewrite (destination_point_ok _ _ _ _ Hr). reflexivity.
Qed.

(** C4.  On valid input with a positive step the sampler returns
    [ceil(duration_min / step_min) + 1] samples: sample [i], for every
    [i < ceil(duration_min / step_min)], is taken at the elapsed time
    [i * step_min], a multiple of the step before the duration, and the
    final sample is taken at [duration_min] itself, whether or not the
    duration is a multiple of the step. *)
Theorem trajectory_points_count (lat0 lon0 bearing speed duration step : Q) :
  in_range lat0 lon0 = true -> 0 <= speed -> 0 <= duration -> 0 < step ->
  exists pts,
    trajectory_points (Fin lat0) (Fin lon0) (Fin bearing) (Fin speed)
                      (Fin duration) (Fin step) = Ok pts /\
    Z.of_nat (List.length pts) = (Qceiling (duration / step) + 1)%Z /\
    (forall i : nat,
        (Z.of_nat i < Qceiling (duration / step))%Z ->
        inject_Z (Z.of_nat i) * step < duration /\
        nth_error pts i
        = Some (sample_point lat0 lon0 bearing speed (inject_Z (Z.of_nat i) * step))) /\
    nth_error pts (Z.to_nat (Qceiling (duration / step)))
    = Some (sample_point lat0 lon0 bearing speed duration).
Proof.
  intros Hr Hs Hd Hstep.
  exists (map (sample_point lat0 lon0 bearing speed) (sample_times step duration)).
  split; [apply trajectory_points_ok; assumption |].
  split; [rewrite length_map; apply sample_times_length; assumption |].
  split.
  - intros i Hi. split; [apply multiple_before; assumption |].
    rewrite nth_error_map, sample_times_nth by assumption. reflexivity.
  - rewrite nth_error_map, sample_times_last by assumption. reflexivity.
Qed.

(* ------------------------------------------------------------------ *)
(** ** Milestone 3 *)





(** Whenever the loop body of milestone 3 completes, the recorded total
    is the rounded product of the doubles and the recorded destination
    is [destination_point] of that rounded total. *)
Lemma add_trajectory_inv (t : Threat.t) (tr : Track.t) :
  add_trajectory t = Ok tr ->
  Track.threat tr = t /\
  Track.total_distance_km tr
  = pyround2 (pymul (Threat.speed_kmh t) (pydiv_const (Threat.duration_min t) 60)) /\
  destination_point (Threat.origin_lat t) (Threat.origin_lon t) (Threat.bearing_deg t)
                    (Track.total_distance_km tr)
  = Ok (mkLatLon (Track.dest_lat tr) (Track.dest_lon tr)) /\
  trajectory_points (Threat.origin_lat t) (Threat.origin_lon t) (Threat.bearing_deg t)
                    (Threat.speed_kmh t) (Threat.duration_min t) (Fin 2)
  = Ok (Track.trajectory_pts tr) /\
  Track.num_points tr = List.length (Track.trajectory_pts tr) /\
  List.length (Track.trajectory_pts tr) <> 1%nat.
Proof.
  unfold add_trajectory. intro H.
  apply bind_ok_inv in H. destruct H as [pts [Hpts H]].
  apply bind_ok_inv in H. destruct H as [d [Hd H]].
  apply bind_ok_inv in H. destruct H as [line [Hline H]].
  injection H as <-. simpl. rewrite Hd.
  repeat split; try assumption; try (destruct d; reflexivity).
  intro E. unfold line_coords in Hline.
  destruct pts as [| p [| p' rest]]; simpl in E; try discriminate.
Qed.


(* ------------------------------------------------------------------ *)
(** ** Milestone 4: proximity *)

Lemma min_dist_loop_fin (pts : list (Q * Q)) :
  Forall (fun p => in_range (fst p) (snd p) = true) pts ->
  forall a, exists m,
    min_dist_loop pts (Fin a) = Ok (Fin m) /\
    is_minimum m (a :: base_distances pts).
Proof.
  induction 1 as [| [la lo] rest Hp _ IH]; intro a.
  - exists a. split; [reflexivity |]. split; [left; reflexivity |].
    intros d [<- | []]. apply Qle_refl.
  - simpl in Hp. simpl min_dist_loop. rewrite (haversine_km_ok _ _ Hp). simpl bind.
    simpl pylt. simpl base_distances.
    remember (hav la lo BASE_LAT BASE_LON) as d eqn:Hd. clear Hd.
    destruct (Qlt_bool d a) eqn:E.
    + apply Qlt_bool_iff in E.
      destruct (IH d) as [m [Hm [Hin Hmin]]]. exists m. split; [exact Hm |].
      split; [right; exact Hin |].
      assert (Hmd : m <= d) by (apply Hmin; left; reflexivity).
      intros x [<- | Hx]; [lra | apply Hmin; exact Hx].
    + apply Qlt_bool_false in E.
      destruct (IH a) as [m [Hm [Hin Hmin]]]. exists m. split; [exact Hm |].
      assert (Hma : m <= a) by (apply Hmin; left; reflexivity).
      split.
      * destruct Hin as [<- | Hin]; [left; reflexivity | right; right; exact Hin].
      * intros x [<- | [<- | Hx]]; [exact Hma | lra |].
        apply Hmin. right. exact Hx.
Qed.

Lemma min_dist_loop_inf (pts : list (Q * Q)) :
  pts <> [] ->
  Forall (fun p => in_range (fst p) (snd p) = true) pts ->
  exists m,
    min_dist_loop pts PInf = Ok (Fin m) /\ is_minimum m (base_distances pts).
Proof.
  destruct pts as [| [la lo] rest]; [congruence |]. intros _ Hall.
  inversion Hall as [| ? ? Hp Hrest]; subst. simpl in Hp.
  simpl min_dist_loop. rewrite (haversine_km_ok _ _ Hp). simpl bind. simpl pylt.
  apply min_dist_loop_fin. exact Hrest.
Qed.

(** C6, as the code has it.  For a threat with at least one sample, all
    samples being valid points, there is a minimum [m] of the haversine
    distances from its samples to the base (what a brute-force
    recomputation finds); the recorded minimum distance is [m] rounded to
    2 decimal places, within 0.005 km of [m]; and the threat is flagged
    near the base exactly when the unrounded [m] is at most 500 km. *)
Theorem proximity_rounded_minimum (tr : Track.t) :
  Track.trajectory_pts tr <> [] ->
  Forall (fun p => in_range (fst p) (snd p) = true) (Track.trajectory_pts tr) ->
  exists m,
    is_minimum m (base_distances (Track.trajectory_pts tr)) /\
    proximity tr = Ok (Fin (round2 m), Qle_bool m BASE_PROXIMITY_KM) /\
    (Qle_bool m BASE_PROXIMITY_KM = true <-> m <= 500) /\
    Qabs (round2 m - m) <= 1 # 200.
Proof.
  intros Hne Hall.
  destruct (min_dist_loop_inf _ Hne Hall) as [m [Hm Hmin]].
  exists m. split; [exact Hmin |].
  split; [unfold proximity; rewrite Hm; reflexivity |].
  split; [apply Qle_bool_iff | apply round2_near].
Qed.

(* ------------------------------------------------------------------ *)
(** ** Invalid input *)

Lemma mapM_raise_inv {A B : Type} (f : A -> result B) (l : list A) (e : error) :
  mapM f l = Raise e -> exists x, In x l /\ f x = Raise e.
Proof.
  induction l as [| x l IH]; simpl; intro H; [discriminate |].
  destruct (f x) as [y | e'] eqn:Hx; simpl in H.
  - destruct (mapM f l) as [ys | e'']; simpl in H; [discriminate |].
    destruct (IH H) as [x' [Hin Hx']]. exists x'. auto.
  - injection H as ->. exists x. auto.
Qed.

Lemma finite_raise (x : pyfloat) (e : error) : finite x = Raise e -> e = InvalidInput.
Proof. destruct x; simpl; congruence. Qed.

Lemma guard_raise (ok : bool) (e : error) : guard ok = Raise e -> e = InvalidInput.
Proof. destruct ok; simpl; congruence. Qed.

Lemma bind_raise {A B : Type} (m : result A) (k : A -> result B) (e : error) :
  bind m k = Raise e -> m = Raise e \/ exists a, m = Ok a /\ k a = Raise e.
Proof.
  destruct m as [a | e']; simpl; intro H; [right; eauto | left; congruence].
Qed.

Lemma geo_point_raise (lat0 lon0 : pyfloat) (e : error) :
  geo_point lat0 lon0 = Raise e -> e = InvalidInput.
Proof.
  unfold geo_point. destruct lat0, lon0; simpl; try congruence.
  destruct (in_range q q0); simpl; congruence.
Qed.

Lemma geo_point_inv (lat0 lon0 : pyfloat) (p : Q * Q) :
  geo_point lat0 lon0 = Ok p ->
  lat0 = Fin (fst p) /\ lon0 = Fin (snd p) /\ in_range (fst p) (snd p) = true.
Proof.
  unfold geo_point. destruct lat0, lon0; simpl; try discriminate.
  destruct (in_range q q0) eqn:E; simpl; [| discriminate].
  intro H. injection H as <-. simpl. auto.
Qed.

Lemma haversine_km_raise (a b c d : pyfloat) (e : error) :
  haversine_km a b c d = Raise e -> e = InvalidInput.
Proof.
  unfold haversine_km. intro H.
  apply bind_raise in H. destruct H as [H | [p [_ H]]]; [eapply geo_point_raise; eassumption |].
  apply bind_raise in H. destruct H as [H | [q [_ H]]]; [eapply geo_point_raise; eassumption |].
  discriminate.
Qed.

Lemma initial_bearing_deg_raise (a b c d : pyfloat) (e : error) :
  initial_bearing_deg a b c d = Raise e -> e = InvalidInput.
Proof.
  unfold initial_bearing_deg. intro H.
  apply bind_raise in H. destruct H as [H | [p [_ H]]]; [eapply geo_point_raise; eassumption |].
  apply bind_raise in H. destruct H as [H | [q [_ H]]]; [eapply geo_point_raise; eassumption |].
  discriminate.
Qed.

Lemma destination_point_raise (a b c d : pyfloat) (e : error) :
  destination_point a b c d = Raise e -> e = InvalidInput.
Proof.
  unfold destination_point. intro H.
  apply bind_raise in H. destruct H as [H | [p [_ H]]]; [eapply geo_point_raise; eassumption |].
  apply bind_raise in H. destruct H as [H | [q [_ H]]]; [eapply finite_raise; eassumption |].
  apply bind_raise in H. destruct H as [H | [r [_ H]]]; [eapply finite_raise; eassumption |].
  discriminate.
Qed.

Lemma trajectory_points_raise (a b c d f g : pyfloat) (e : error) :
  trajectory_points a b c d f g = Raise e -> e = InvalidInput.
Proof.
  unfold trajectory_points. intro H.
  apply bind_raise in H. destruct H as [H | [p [_ H]]]; [eapply geo_point_raise; eassumption |].
  apply bind_raise in H. destruct H as [H | [q1 [_ H]]]; [eapply finite_raise; eassumption |].
  apply bind_raise in H. destruct H as [H | [q2 [_ H]]]; [eapply finite_raise; eassumption |].
  apply bind_raise in H. destruct H as [H | [q3 [_ H]]]; [eapply finite_raise; eassumption |].
  apply bind_raise in H. destruct H as [H | [q4 [_ H]]]; [eapply finite_raise; eassumption |].
  apply bind_raise in H. destruct H as [H | [u [_ H]]]; [eapply guard_raise; eassumption |].
  apply mapM_raise_inv in H. destruct H as [t [_ H]].
  apply bind_raise in H. destruct H as [H | [r [_ H]]]; [| discriminate].
  eapply destination_point_raise; eassumption.
Qed.

Lemma threat_of_raw_raise (t : Raw.t) (e : error) :
  threat_of_raw t = Raise e -> e = InvalidInput.
Proof.
  unfold threat_of_raw. intro H.
  apply bind_raise in H. destruct H as [H | [p [_ H]]]; [eapply haversine_km_raise; eassumption |].
  apply bind_raise in H. destruct H as [H | [q [_ H]]]; [| discriminate].
  eapply initial_bearing_deg_raise; eassumption.
Qed.

Lemma line_string_raise (coords : list (Q * Q)) (e : error) :
  line_string coords = Raise e -> e = LineStringError /\ List.length coords = 1%nat.
Proof.
  destruct coords as [| c [| c' rest]]; simpl; intro H; try discriminate.
  injection H as <-. split; reflexivity.
Qed.

Lemma mapM_length {A B : Type} (f : A -> result B) (l : list A) (ys : list B) :
  mapM f l = Ok ys -> List.length ys = List.length l.
Proof.
  intro H. apply mapM_ok_inv in H.
  induction H as [| x y l ys _ _ IH]; simpl; [reflexivity | rewrite IH; reflexivity].
Qed.

(** What the sampler has checked when it returns. *)
Lemma trajectory_points_inv (a b c d f : pyfloat) (step : Q) (pts : list (Q * Q)) :
  trajectory_points a b c d f (Fin step) = Ok pts ->
  exists la lo bq sq dq,
    a = Fin la /\ b = Fin lo /\ c = Fin bq /\ d = Fin sq /\ f = Fin dq /\
    in_range la lo = true /\ 0 <= sq /\ 0 <= dq /\
    List.length pts = List.length (sample_times step dq).
Proof.
  unfold trajectory_points. intro H.
  apply bind_ok_inv in H. destruct H as [p [Hp H]].
  apply geo_point_inv in Hp. destruct Hp as (Hlat & Hlon & Hr).
  destruct c as [bq | | |]; try discriminate.
  destruct d as [sq | | |]; try discriminate.
  destruct f as [dq | | |]; try discriminate.
  simpl in H.
  destruct (Qle_bool 0 sq && Qle_bool 0 dq) eqn:E; [| discriminate].
  apply andb_true_iff in E. destruct E as [Es Ed].
  apply Qle_bool_iff in Es, Ed. simpl in H. apply mapM_length in H.
  exists (fst p), (snd p), bq, sq, dq. auto 10.
Qed.

(** The sampler rejects invalid input. *)
Lemma trajectory_points_invalid (a b c d f : pyfloat) (step : Q) :
  non_finite a || non_finite b || non_finite c || non_finite d || non_finite f
  || out_of_range a b || negative d || negative f = true ->
  trajectory_points a b c d f (Fin step) = Raise InvalidInput.
Proof.
  intro Hinv.
  destruct (trajectory_points a b c d f (Fin step)) as [pts | e] eqn:Hrun;
    [| f_equal; eapply trajectory_points_raise; exact Hrun].
  exfalso. apply trajectory_points_inv in Hrun.
  destruct Hrun as (la & lo & bq & sq & dq & -> & -> & -> & -> & -> & Hr & Hs & Hd & _).
  unfold non_finite, out_of_range, negative in Hinv. simpl in Hinv.
  rewrite Hr in Hinv. simpl in Hinv.
  apply Qle_bool_iff in Hs, Hd. unfold Qlt_bool in Hinv. rewrite Hs, Hd in Hinv.
  discriminate.
Qed.

(** The loop body of milestone 3 raises the validation error of the
    toolkit or the error of a one-point line. *)
Lemma add_trajectory_raise (t : Threat.t) (e : error) :
  add_trajectory t = Raise e ->
  e = InvalidInput \/
  (e = LineStringError /\ exists q, Threat.duration_min t = Fin q /\ q == 0).
Proof.
  unfold add_trajectory. intro H.
  apply bind_raise in H.
  destruct H as [H | [pts [Hpts H]]]; [left; eapply trajectory_points_raise; eassumption |].
  apply bind_raise in H.
  destruct H as [H | [d [_ H]]]; [left; eapply destination_point_raise; eassumption |].
  apply bind_raise in H. destruct H as [H | [line [_ H]]]; [| discriminate].
  apply line_string_raise in H. destruct H as [-> Hlen]. right. split; [reflexivity |].
  unfold line_coords in Hlen. rewrite length_map in Hlen.
  apply trajectory_points_inv in Hpts.
  destruct Hpts as (la & lo & bq & sq & dq & _ & _ & _ & _ & Hd & _ & _ & Hd0 & Hl).
  exists dq. split; [exact Hd |].
  pose proof (sample_times_length 2 dq eq_refl Hd0) as Hz.
  rewrite <- Hl, Hlen in Hz.
  assert (Hc : Qceiling (dq / 2) = 0%Z) by (simpl in Hz; lia).
  pose proof (Qle_ceiling (dq / 2)) as Hle. rewrite Hc in Hle.
  change (inject_Z 0) with 0 in Hle.
  assert (Hdq : dq <= 0).
  { setoid_replace dq with (dq / 2 * 2) by field. lra. }
  lra.
Qed.

Lemma add_trajectory_invalid (t : Threat.t) :
  non_finite (Threat.origin_lat t) || non_finite (Threat.origin_lon t)
  || non_finite (Threat.bearing_deg t) || non_finite (Threat.speed_kmh t)
  || non_finite (Threat.duration_min t)
  || out_of_range (Threat.origin_lat t) (Threat.origin_lon t)
  || negative (Threat.speed_kmh t) || negative (Threat.duration_min t) = true ->
  add_trajectory t = Raise InvalidInput.
Proof.
  intro Hinv. unfold add_trajectory.
  rewrite (trajectory_points_invalid _ _ _ _ _ 2 Hinv). reflexivity.
Qed.

(** Milestone 2 copies the kinematics and lets only records with a valid
    origin through. *)
Lemma threat_of_raw_inv (r : Raw.t) (t : Threat.t) :
  threat_of_raw r = Ok t ->
  Threat.origin_lat t = Raw.origin_lat r /\ Threat.origin_lon t = Raw.origin_lon r /\
  Threat.bearing_deg t = Raw.bearing_deg r /\ Threat.speed_kmh t = Raw.speed_kmh r /\
  Threat.duration_min t = Raw.duration_min r /\
  exists p, geo_point (Raw.origin_lat r) (Raw.origin_lon r) = Ok p.
Proof.
  unfold threat_of_raw, haversine_km. intro H.
  apply bind_ok_inv in H. destruct H as [d [Hd H]].
  apply bind_ok_inv in H. destruct H as [b [_ H]].
  injection H as <-. simpl. repeat split.
  apply bind_ok_inv in Hd. destruct Hd as [p [Hp _]]. eauto.
Qed.

(** C9.  A threat record that is invalid input (a coordinate out of
    range, a negative speed or duration, or a non-finite numeric field)
    is rejected at the boundary of the primitives and the sampler:
    either the distance primitive of milestone 2 raises InvalidInput on
    it, or the sampler of milestone 3 does, before anything is derived
    from it.  Hence no batch that contains it returns derived geometry:
    the script stops with InvalidInput, or with the error of a one-point
    line that a record of duration zero raised first; and it stops with
    InvalidInput when no record of the batch has duration zero. *)
Theorem invalid_input_rejected (threats_raw : list Raw.t) (t : Raw.t) :
  In t threats_raw ->
  invalid_input t = true ->
  (threat_of_raw t = Raise InvalidInput \/
   exists t2, threat_of_raw t = Ok t2 /\ add_trajectory t2 = Raise InvalidInput) /\
  (exists e, enrich threats_raw = Raise e /\ (e = InvalidInput \/ e = LineStringError)) /\
  ((forall r q, In r threats_raw -> Raw.duration_min r = Fin q -> ~ q == 0) ->
   enrich threats_raw = Raise InvalidInput).
Proof.
  intros Hin Hinv.
  assert (Hrec : forall t2, threat_of_raw t = Ok t2 ->
                            add_trajectory t2 = Raise InvalidInput).
  { intros t2 Ht2. apply add_trajectory_invalid.
    apply threat_of_raw_inv in Ht2.
    destruct Ht2 as (-> & -> & -> & -> & -> & _). exact Hinv. }
  split; [| split].
  - destruct (threat_of_raw t) as [t2 | e] eqn:Ht.
    + right. exists t2. split; [reflexivity | apply Hrec; reflexivity].
    + left. f_equal. eapply threat_of_raw_raise. exact Ht.
  - unfold enrich, milestone2.
    destruct (mapM threat_of_raw threats_raw) as [threats | e] eqn:Hm2.
    + simpl bind. pose proof (mapM_ok_inv _ _ _ Hm2) as Hall.
      destruct (Forall2_In_l _ _ _ _ Hall Hin) as [t2 [Hin2 Ht2]].
      destruct threats as [| t0 threats0]; [destruct Hin2 |].
      simpl bind. unfold milestone3.
      destruct (mapM add_trajectory (t0 :: threats0)) as [tracks | e] eqn:Hm3.
      * exfalso. apply mapM_ok_inv in Hm3.
        destruct (Forall2_In_l _ _ _ _ Hm3 Hin2) as [tr [_ Htr]].
        rewrite (Hrec t2 Ht2) in Htr. discriminate.
      * exists e. split; [reflexivity |].
        apply mapM_raise_inv in Hm3. destruct Hm3 as [y [_ Hy]].
        apply add_trajectory_raise in Hy. destruct Hy as [-> | [-> _]]; auto.
    + exists e. split; [reflexivity |]. left.
      apply mapM_raise_inv in Hm2. destruct Hm2 as [x [_ Hx]].
      eapply threat_of_raw_raise. exact Hx.
  - intro Hmoving. unfold enrich, milestone2.
    destruct (mapM threat_of_raw threats_raw) as [threats | e] eqn:Hm2.
    + simpl bind. pose proof (mapM_ok_inv _ _ _ Hm2) as Hall.
      destruct (Forall2_In_l _ _ _ _ Hall Hin) as [t2 [Hin2 Ht2]].
      destruct threats as [| t0 threats0]; [destruct Hin2 |].
      simpl bind. unfold milestone3.
      apply (mapM_raise add_trajectory InvalidInput _ t2).
      * intros y e' Hy Hraise. apply add_trajectory_raise in Hraise.
        destruct Hraise as [-> | [_ [q [Hq Hzero]]]]; [reflexivity |].
        exfalso. destruct (Forall2_In_r _ _ _ _ Hall Hy) as [r [Hr Hry]].
        apply threat_of_raw_inv in Hry. destruct Hry as (_ & _ & _ & _ & Hdur & _).
        rewrite Hdur in Hq. exact (Hmoving r q Hr Hq Hzero).
      * exact Hin2.
      * apply Hrec. exact Ht2.
    + simpl. f_equal.
      apply mapM_raise_inv in Hm2. destruct Hm2 as [x [_ Hx]].
      eapply threat_of_raw_raise. exact Hx.
Qed.

(* ================================================================== *)
(** * The reports *)
(* ================================================================== *)

(** ** Dictionaries *)

Lemma dict_get_index {V : Type} (d : pydict V) (k : string) (default : V) :
  dict_get d k default
  = match dict_index d k with Ok v => v | Raise _ => default end.
Proof.
  induction d as [| [k' v] d IH]; simpl; [reflexivity |].
  destruct (String.eqb k' k); [reflexivity | exact IH].
Qed.

Lemma dict_index_absent {V : Type} (d : pydict V) (k : string) :
  ~ In k (map fst d) -> dict_index d k = Raise (KeyError k).
Proof.
  induction d as [| [k' v] d IH]; simpl; intro H; [reflexivity |].
  destruct (String.eqb k' k) eqn:E.
  - apply String.eqb_eq in E. exfalso. apply H. left. exact E.
  - apply IH. intro Hin. apply H. right. exact Hin.
Qed.

Lemma dict_index_present {V : Type} (d : pydict V) (k : string) :
  In k (map fst d) -> exists v, dict_index d k = Ok v /\ In (k, v) d.
Proof.
  induction d as [| [k' v] d IH]; simpl; intro H; [destruct H |].
  destruct (String.eqb k' k) eqn:E.
  - apply String.eqb_eq in E. subst k'. exists v. split; [reflexivity | left; reflexivity].
  - apply String.eqb_neq in E. destruct H as [H | H]; [contradiction |].
    destruct (IH H) as [v' [Hv Hin]]. exists v'. split; [exact Hv | right; exact Hin].
Qed.

Lemma dict_get_set {V : Type} (d : pydict V) (k k' : string) (v default : V) :
  dict_get (dict_set d k v) k' default
  = if String.eqb k k' then v else dict_get d k' default.
Proof.
  induction d as [| [k0 v0] d IH]; simpl.
  - reflexivity.
  - destruct (String.eqb k0 k) eqn:E0; simpl.
    + apply String.eqb_eq in E0. subst k0.
      destruct (String.eqb k k'); reflexivity.
    + destruct (String.eqb k0 k') eqn:E1; [| exact IH].
      apply String.eqb_eq in E1. subst k0. rewrite String.eqb_sym, E0. reflexivity.
Qed.

Lemma dict_set_keys {V : Type} (d : pydict V) (k : string) (v : V) (k' : string) :
  In k' (map fst (dict_set d k v)) <-> k' = k \/ In k' (map fst d).
Proof.
  induction d as [| [k0 v0] d IH]; simpl.
  - intuition.
  - destruct (String.eqb k0 k) eqn:E; simpl.
    + apply String.eqb_eq in E. subst k0. intuition.
    + rewrite IH. intuition.
Qed.

Lemma dict_set_NoDup {V : Type} (d : pydict V) (k : string) (v : V) :
  NoDup (map fst d) -> NoDup (map fst (dict_set d k v)).
Proof.
  induction d as [| [k0 v0] d IH]; simpl; intro H.
  - constructor; [intros [] | constructor].
  - inversion H as [| ? ? Hk0 Hd]; subst.
    destruct (String.eqb k0 k) eqn:E; simpl.
    + constructor; assumption.
    + apply String.eqb_neq in E. constructor; [| apply IH; exact Hd].
      rewrite dict_set_keys. intros [Hk | Hin]; [congruence | contradiction].
Qed.

Lemma total_count_incr (d : pydict Z) (k : string) :
  total_count (dict_set d k (dict_get d k 0 + 1)%Z) = (total_count d + 1)%Z.
Proof.
  unfold total_count.
  induction d as [| [k0 v0] d IH]; simpl; [reflexivity |].
  destruct (String.eqb k0 k); simpl; [lia | rewrite IH; lia].
Qed.

(** ** Threats by type *)

Lemma type_counts_fold (threats : list Track.t) :
  forall counts : pydict Z,
    NoDup (map fst counts) ->
    NoDup (map fst (fold_left count_type threats counts)) /\
    (forall type,
        dict_get (fold_left count_type threats counts) type 0%Z
        = (dict_get counts type 0 + Z.of_nat (threats_of_type type threats))%Z) /\
    (forall type,
        In type (map fst (fold_left count_type threats counts)) <->
        In type (map fst counts) \/ In type (map Track.type threats)) /\
    total_count (fold_left count_type threats counts)
    = (total_count counts + Z.of_nat (List.length threats))%Z.
Proof.
  induction threats as [| t threats IH]; intros counts Hnd.
  - simpl. repeat split; try assumption; try lia; intuition.
  - simpl fold_left.
    destruct (IH (count_type counts t)) as (Hn & Hget & Hkeys & Htotal).
    { apply dict_set_NoDup. exact Hnd. }
    split; [exact Hn |]. split; [| split].
    + intro type. rewrite Hget. unfold count_type at 1. rewrite dict_get_set.
      unfold threats_of_type. simpl filter.
      destruct (String.eqb (Track.type t) type) eqn:E.
      * apply String.eqb_eq in E. subst type. simpl List.length. lia.
      * lia.
    + intro type. rewrite Hkeys. unfold count_type. rewrite dict_set_keys. simpl.
      intuition.
    + rewrite Htotal. unfold count_type. rewrite total_count_incr.
      simpl List.length. lia.
Qed.

(** X3.  The breakdown by type counts every threat once: the dictionary
    has one key per type that occurs, the count of a type is the number
    of threats of that type (0 for a type that does not occur), and the
    counts add up to the number of threats. *)
Theorem type_counts_correct (threats : list Track.t) :
  NoDup (map fst (type_counts threats)) /\
  (forall type,
      dict_get (type_counts threats) type 0%Z
      = Z.of_nat (threats_of_type type threats)) /\
  (forall type,
      In type (map fst (type_counts threats)) <-> In type (map Track.type threats)) /\
  total_count (type_counts threats) = Z.of_nat (List.length threats).
Proof.
  destruct (type_counts_fold threats []) as (Hn & Hget & Hkeys & Htotal);
    [constructor |].
  split; [exact Hn |]. split; [| split].
  - intro type. unfold type_counts. rewrite Hget. reflexivity.
  - intro type. unfold type_counts. rewrite Hkeys. simpl. intuition.
  - unfold type_counts. rewrite Htotal. reflexivity.
Qed.

(** ** Styles *)

Lemma THREAT_STYLES_full (type : string) (style : Style) :
  dict_index THREAT_STYLES type = Ok style ->
  exists km s, style_buffer_km style = Some km /\ style_severity style = Some s.
Proof.
  unfold THREAT_STYLES, full_style. cbn [dict_index].
  repeat (match goal with |- context [String.eqb ?a type] => destruct (String.eqb a type) end);
    intro H; try discriminate; injection H as <-; simpl; eauto.
Qed.

Lemma endpoint_row_inv (t : Track.t) (row : Endpoint.t Geometry) :
  endpoint_row t = Ok row ->
  exists style km s,
    dict_index THREAT_STYLES (Track.type t) = Ok style /\
    style_buffer_km style = Some km /\ style_severity style = Some s /\
    row = Endpoint.mk (Track.id t) (Track.type t) km s (style_color style)
                      (Point (Track.dest_lon t) (Track.dest_lat t)).
Proof.
  unfold endpoint_row. intro H.
  apply bind_ok_inv in H. destruct H as [style [Hstyle H]].
  destruct (THREAT_STYLES_full _ _ Hstyle) as [km [s [Hkm Hs]]].
  rewrite Hkm, Hs in H. simpl in H. injection H as <-.
  exists style, km, s. auto.
Qed.

Lemma endpoint_row_known (t : Track.t) :
  In (Track.type t) (map fst THREAT_STYLES) ->
  exists row, endpoint_row t = Ok row.
Proof.
  intro H. destruct (dict_index_present _ _ H) as [style [Hstyle _]].
  destruct (THREAT_STYLES_full _ _ Hstyle) as [km [s [Hkm Hs]]].
  unfold endpoint_row. rewrite Hstyle. simpl. rewrite Hkm, Hs. simpl. eauto.
Qed.

Lemma endpoint_row_unknown (t : Track.t) :
  ~ In (Track.type t) (map fst THREAT_STYLES) ->
  endpoint_row t = Raise (KeyError (Track.type t)).
Proof.
  intro H. unfold endpoint_row. rewrite (dict_index_absent _ _ H). reflexivity.
Qed.

(** X9.  For every threat, the colour the drawing helpers use agrees with
    the damage-zone stage when that stage succeeds: it is the colour of
    the threat's endpoint row.  When the damage-zone stage fails, it
    fails with KeyError on the threat's type, and the drawing helpers had
    drawn that threat gray. *)
Theorem marker_color_agrees (t : Track.t) :
  match endpoint_row t with
  | Ok row => marker_color THREAT_STYLES (Track.type t) = Ok (Endpoint.color row)
  | Raise e =>
      e = KeyError (Track.type t) /\
      marker_color THREAT_STYLES (Track.type t) = Ok "gray"%string
  end.
Proof.
  unfold marker_color, marker_style. rewrite dict_get_index.
  destruct (endpoint_row t) as [row | e] eqn:Hrow.
  - destruct (endpoint_row_inv _ _ Hrow) as (style & km & s & Hstyle & _ & _ & ->).
    rewrite Hstyle. reflexivity.
  - unfold endpoint_row in Hrow.
    destruct (dict_index THREAT_STYLES (Track.type t)) as [style | e'] eqn:Hstyle.
    + destruct (THREAT_STYLES_full _ _ Hstyle) as [km [s [Hkm Hs]]].
      simpl in Hrow. rewrite Hkm, Hs in Hrow. discriminate.
    + simpl in Hrow. injection Hrow as <-.
      assert (Habs : ~ In (Track.type t) (map fst THREAT_STYLES)).
      { intro Hin. destruct (dict_index_present _ _ Hin) as [v [Hv _]]. congruence. }
      rewrite (dict_index_absent _ _ Habs) in Hstyle. injection Hstyle as <-.
      split; reflexivity.
Qed.

(** ** Endpoint rows *)

Lemma THREAT_STYLES_table (type : string) (style : Style) :
  dict_index THREAT_STYLES type = Ok style ->
  (type = "alien"%string /\ style = full_style "#00FF00" "green" 150 "High") \/
  (type = "orbital"%string /\ style = full_style "#9400D3" "purple" 300 "Critical") \/
  (type = "airborne"%string /\ style = full_style "#FF8C00" "orange" 100 "Moderate") \/
  (type = "kaiju"%string /\ style = full_style "#FF0000" "red" 200 "Severe").
Proof.
  unfold THREAT_STYLES. cbn [dict_index].
  destruct (String.eqb "alien" type) eqn:E1.
  { apply String.eqb_eq in E1. intro H. injection H as <-. auto. }
  destruct (String.eqb "orbital" type) eqn:E2.
  { apply String.eqb_eq in E2. intro H. injection H as <-. auto. }
  destruct (String.eqb "airborne" type) eqn:E3.
  { apply String.eqb_eq in E3. intro H. injection H as <-. auto. }
  destruct (String.eqb "kaiju" type) eqn:E4.
  { apply String.eqb_eq in E4. intro H. injection H as <-. auto 6. }
  discriminate.
Qed.

(** X7.  When every threat has a type of THREAT_STYLES, the endpoint
    table is built: one row per threat, in threat order, with the
    threat's id and type and the point (dest_lon, dest_lat); and the
    buffer radius, severity and colour of a row depend on its type only:
    alien 150 km High, orbital 300 km Critical, airborne 100 km Moderate,
    kaiju 200 km Severe. *)
Theorem endpoint_data_rows (threats : list Track.t) :
  Forall (fun t => In (Track.type t) (map fst THREAT_STYLES)) threats ->
  exists rows,
    endpoint_data threats = Ok rows /\
    map Endpoint.id rows = map Track.id threats /\
    map Endpoint.type rows = map Track.type threats /\
    map Endpoint.geometry rows
    = map (fun t => Point (Track.dest_lon t) (Track.dest_lat t)) threats /\
    Forall (fun row =>
              In (Endpoint.type row, Endpoint.buffer_km row, Endpoint.severity row)
                 [("alien"%string, 150%Z, "High"%string);
                  ("orbital"%string, 300%Z, "Critical"%string);
                  ("airborne"%string, 100%Z, "Moderate"%string);
                  ("kaiju"%string, 200%Z, "Severe"%string)]) rows /\
    (forall r1 r2, In r1 rows -> In r2 rows -> Endpoint.type r1 = Endpoint.type r2 ->
                   Endpoint.buffer_km r1 = Endpoint.buffer_km r2 /\
                   Endpoint.severity r1 = Endpoint.severity r2 /\
                   Endpoint.color r1 = Endpoint.color r2).
Proof.
  intro Hknown.
  assert (Hrows : exists rows,
             endpoint_data threats = Ok rows /\
             Forall2 (fun t row => endpoint_row t = Ok row) threats rows).
  { unfold endpoint_data. induction Hknown as [| t ts Ht _ IH].
    - exists []. split; [reflexivity | constructor].
    - destruct IH as [rows [Hrun Hall]].
      destruct (endpoint_row_known t Ht) as [row Hrow].
      exists (row :: rows). simpl. rewrite Hrow. simpl. rewrite Hrun. simpl.
      split; [reflexivity | constructor; assumption]. }
  destruct Hrows as [rows [Hrun Hall]]. exists rows. split; [exact Hrun |].
  assert (Hshape : forall row, In row rows ->
            exists t style km s,
              dict_index THREAT_STYLES (Endpoint.type row) = Ok style /\
              style_buffer_km style = Some km /\ style_severity style = Some s /\
              Endpoint.buffer_km row = km /\ Endpoint.severity row = s /\
              Endpoint.color row = style_color style /\ Endpoint.type row = Track.type t).
  { intros row Hin. destruct (Forall2_In_r _ _ _ _ Hall Hin) as [t [_ Ht]].
    destruct (endpoint_row_inv _ _ Ht) as (style & km & s & Hs & Hkm & Hsev & ->).
    exists t, style, km, s. simpl. auto 10. }
  split; [| split; [| split; [| split]]].
  - clear Hshape Hrun Hknown. induction Hall as [| t row ts rows Ht _ IH]; [reflexivity |].
    destruct (endpoint_row_inv _ _ Ht) as (style & km & s & _ & _ & _ & ->).
    simpl. f_equal. exact IH.
  - clear Hshape Hrun Hknown. induction Hall as [| t row ts rows Ht _ IH]; [reflexivity |].
    destruct (endpoint_row_inv _ _ Ht) as (style & km & s & _ & _ & _ & ->).
    simpl. f_equal. exact IH.
  - clear Hshape Hrun Hknown. induction Hall as [| t row ts rows Ht _ IH]; [reflexivity |].
    destruct (endpoint_row_inv _ _ Ht) as (style & km & s & _ & _ & _ & ->).
    simpl. f_equal. exact IH.
  - apply Forall_forall. intros row Hin.
    destruct (Hshape row Hin) as (t & style & km & s & Hs & Hkm & Hsev & <- & <- & _ & _).
    destruct (THREAT_STYLES_table _ _ Hs) as [[Ht ->] | [[Ht ->] | [[Ht ->] | [Ht ->]]]];
      simpl in Hkm, Hsev; injection Hkm as <-; injection Hsev as <-; rewrite Ht;
      simpl; auto 6.
  - intros r1 r2 H1 H2 Etype.
    destruct (Hshape r1 H1) as (t1 & st1 & km1 & s1 & Hs1 & Hkm1 & Hsev1 & -> & -> & -> & _).
    destruct (Hshape r2 H2) as (t2 & st2 & km2 & s2 & Hs2 & Hkm2 & Hsev2 & -> & -> & -> & _).
    rewrite Etype in Hs1. rewrite Hs1 in Hs2. injection Hs2 as <-.
    rewrite Hkm1 in Hkm2. rewrite Hsev1 in Hsev2.
    injection Hkm2 as <-. injection Hsev2 as <-. auto.
Qed.

(** X8.  The endpoint table fails on the first threat whose type is not
    a key of THREAT_STYLES: the error is KeyError on that type, whatever
    follows it in the list. *)
Theorem endpoint_data_first_unknown (before after : list Track.t) (t : Track.t) :
  Forall (fun t' => In (Track.type t') (map fst THREAT_STYLES)) before ->
  ~ In (Track.type t) (map fst THREAT_STYLES) ->
  endpoint_data (before ++ t :: after) = Raise (KeyError (Track.type t)).
Proof.
  intros Hbefore Ht. unfold endpoint_data.
  induction Hbefore as [| t' ts Ht' _ IH]; simpl.
  - rewrite (endpoint_row_unknown t Ht). reflexivity.
  - destruct (endpoint_row_known t' Ht') as [row Hrow]. rewrite Hrow. simpl.
    rewrite IH. reflexivity.
Qed.

(** ** Damage records and threat ids *)

Lemma records_of_row_nonempty (world : list (CountryRow Geometry))
    (row : Endpoint.t Geometry) :
  exists r, In r (records_of_row world row).
Proof.
  rewrite records_of_row_eq. destruct (affected world row) as [| c rows].
  - eexists. left. reflexivity.
  - eexists. left. reflexivity.
Qed.

(** X16.  No threat is lost and none is invented between the buffer rows
    and the damage table: the threat ids of [damage_df] are exactly the
    ids of the buffer rows, and the table has at least as many records as
    there are buffer rows. *)
Theorem damage_records_ids (world_4326 : list (CountryRow Geometry))
    (buffers : list (Endpoint.t Geometry)) :
  (forall t_id,
      In t_id (map threat_id (damage_records world_4326 buffers)) <->
      In t_id (map Endpoint.id buffers)) /\
  (List.length buffers <= List.length (damage_records world_4326 buffers))%nat.
Proof.
  split.
  - intro t_id. rewrite !in_map_iff. split.
    + intros [r [Hid Hr]]. apply in_flat_map in Hr. destruct Hr as [row [Hrow Hr]].
      apply records_of_row_id in Hr. exists row. split; [congruence | exact Hrow].
    + intros [row [Hid Hrow]].
      destruct (records_of_row_nonempty world_4326 row) as [r Hr].
      exists r. split.
      * rewrite (records_of_row_id _ _ _ Hr). exact Hid.
      * apply in_flat_map. exists row. split; assumption.
  - unfold damage_records. induction buffers as [| row rows IH]; simpl; [lia |].
    rewrite length_app.
    destruct (records_of_row_nonempty world_4326 row) as [r Hr].
    destruct (records_of_row world_4326 row) as [| r0 rs]; [destruct Hr |].
    simpl. lia.
Qed.

(** ** Closest and farthest threat *)

(** The running minimum is the first element of smallest key. *)
Lemma min_fold_first {A : Type} (key : A -> Q) (l : list A) :
  forall (before : list A) (best : A) (between : list A),
    (forall t, In t before -> key best < key t) ->
    (forall t, In t between -> key best <= key t) ->
    exists before' after',
      before ++ best :: between ++ l
      = before' ++ fold_left (min_step_float key) l best :: after' /\
      (forall t, In t before' -> key (fold_left (min_step_float key) l best) < key t) /\
      (forall t, In t after' -> key (fold_left (min_step_float key) l best) <= key t).
Proof.
  induction l as [| y l IH]; intros before best between Hb Hm.
  - exists before, between. rewrite app_nil_r. simpl. auto.
  - simpl fold_left. unfold min_step_float at 2 4 6.
    destruct (Qlt_bool (key y) (key best)) eqn:E.
    + apply Qlt_bool_iff in E.
      destruct (IH (before ++ best :: between) y []) as (b' & a' & Heq & Hlt & Hle).
      * intros t Ht. apply in_app_or in Ht. destruct Ht as [Ht | [<- | Ht]].
        -- eapply Qlt_trans; [exact E | apply Hb; exact Ht].
        -- exact E.
        -- eapply Qlt_le_trans; [exact E | apply Hm; exact Ht].
      * intros t [].
      * exists b', a'. split; [| split; assumption].
        rewrite <- Heq. rewrite <- app_assoc. reflexivity.
    + apply Qlt_bool_false in E.
      destruct (IH before best (between ++ [y])) as (b' & a' & Heq & Hlt & Hle).
      * exact Hb.
      * intros t Ht. apply in_app_or in Ht. destruct Ht as [Ht | [<- | []]];
          [apply Hm; exact Ht | exact E].
      * exists b', a'. split; [| split; assumption].
        rewrite <- Heq. rewrite <- app_assoc. reflexivity.
Qed.

(** The running maximum is the first element of greatest key. *)
Lemma max_fold_first {A : Type} (key : A -> Q) (l : list A) :
  forall (before : list A) (best : A) (between : list A),
    (forall t, In t before -> key t < key best) ->
    (forall t, In t between -> key t <= key best) ->
    exists before' after',
      before ++ best :: between ++ l
      = before' ++ fold_left (max_step_float key) l best :: after' /\
      (forall t, In t before' -> key t < key (fold_left (max_step_float key) l best)) /\
      (forall t, In t after' -> key t <= key (fold_left (max_step_float key) l best)).
Proof.
  induction l as [| y l IH]; intros before best between Hb Hm.
  - exists before, between. rewrite app_nil_r. simpl. auto.
  - simpl fold_left. unfold max_step_float at 2 4 6.
    destruct (Qlt_bool (key best) (key y)) eqn:E.
    + apply Qlt_bool_iff in E.
      destruct (IH (before ++ best :: between) y []) as (b' & a' & Heq & Hlt & Hle).
      * intros t Ht. apply in_app_or in Ht. destruct Ht as [Ht | [<- | Ht]].
        -- eapply Qlt_trans; [apply Hb; exact Ht | exact E].
        -- exact E.
        -- eapply Qle_lt_trans; [apply Hm; exact Ht | exact E].
      * intros t [].
      * exists b', a'. split; [| split; assumption].
        rewrite <- Heq. rewrite <- app_assoc. reflexivity.
    + apply Qlt_bool_false in E.
      destruct (IH before best (between ++ [y])) as (b' & a' & Heq & Hlt & Hle).
      * exact Hb.
      * intros t Ht. apply in_app_or in Ht. destruct Ht as [Ht | [<- | []]];
          [apply Hm; exact Ht | exact E].
      * exists b', a'. split; [| split; assumption].
        rewrite <- Heq. rewrite <- app_assoc. reflexivity.
Qed.

(** X1.  On an empty list of threats the closest/farthest report raises
    ValueError.  Otherwise the closest threat is the first threat of
    smallest recorded distance to the base: every threat before it in the
    list is strictly farther, every threat after it is at least as far;
    and the farthest threat is the first threat of greatest recorded
    distance. *)
Theorem closest_farthest_first (threats : list Threat.t) :
  match threats with
  | [] => closest threats = Raise ValueError /\ farthest threats = Raise ValueError
  | _ =>
      exists c f,
        closest threats = Ok c /\ farthest threats = Ok f /\
        (exists before after,
            threats = before ++ c :: after /\
            (forall t, In t before ->
                       Threat.dist_to_base_km c < Threat.dist_to_base_km t) /\
            (forall t, In t after ->
                       Threat.dist_to_base_km c <= Threat.dist_to_base_km t)) /\
        (exists before after,
            threats = before ++ f :: after /\
            (forall t, In t before ->
                       Threat.dist_to_base_km t < Threat.dist_to_base_km f) /\
            (forall t, In t after ->
                       Threat.dist_to_base_km t <= Threat.dist_to_base_km f))
  end.
Proof.
  destruct threats as [| x l]; [split; reflexivity |].
  exists (fold_left (min_step_float Threat.dist_to_base_km) l x).
  exists (fold_left (max_step_float Threat.dist_to_base_km) l x).
  split; [reflexivity |]. split; [reflexivity |]. split.
  - destruct (min_fold_first Threat.dist_to_base_km l [] x []) as (b & a & Heq & Hlt & Hle);
      [intros t [] | intros t [] |].
    exists b, a. split; [exact Heq | split; assumption].
  - destruct (max_fold_first Threat.dist_to_base_km l [] x []) as (b & a & Heq & Hlt & Hle);
      [intros t [] | intros t [] |].
    exists b, a. split; [exact Heq | split; assumption].
Qed.

Lemma closest_le (threats : list Threat.t) (c : Threat.t) :
  closest threats = Ok c ->
  In c threats /\
  forall t, In t threats -> Threat.dist_to_base_km c <= Threat.dist_to_base_km t.
Proof.
  destruct threats as [| x l]; [discriminate |]. intro Hc.
  unfold closest in Hc. simpl in Hc. injection Hc as <-.
  destruct (min_fold_first Threat.dist_to_base_km l [] x []) as (b & a & Heq & Hlt & Hle);
    [intros t [] | intros t [] |].
  simpl in Heq. rewrite Heq. split.
  - apply in_or_app. right. left. reflexivity.
  - intros t Ht. apply in_app_or in Ht. destruct Ht as [Ht | [<- | Ht]].
    + apply Qlt_le_weak. apply Hlt. exact Ht.
    + apply Qle_refl.
    + apply Hle. exact Ht.
Qed.

(** The recorded distance of a threat of milestone 2 is the rounded
    haversine distance of its origin. *)
Lemma threat_of_raw_distance (r : Raw.t) (t : Threat.t) :
  threat_of_raw r = Ok t ->
  exists d,
    haversine_km (Threat.origin_lat t) (Threat.origin_lon t) (Fin BASE_LAT) (Fin BASE_LON)
    = Ok d /\
    Threat.dist_to_base_km t = round2 d.
Proof.
  unfold threat_of_raw. intro H.
  apply bind_ok_inv in H. destruct H as [d [Hd H]].
  apply bind_ok_inv in H. destruct H as [b [_ H]].
  injection H as <-. simpl. exists d. split; [exact Hd | reflexivity].
Qed.

Lemma milestone2_inv (threats_raw : list Raw.t) (threats : list Threat.t) :
  milestone2 threats_raw = Ok threats ->
  Forall2 (fun r t => threat_of_raw r = Ok t) threats_raw threats /\ threats <> [].
Proof.
  unfold milestone2. intro H. apply bind_ok_inv in H. destruct H as [ts [Hts H]].
  destruct ts as [| t0 ts0]; [discriminate |]. injection H as <-.
  split; [apply mapM_ok_inv; exact Hts | discriminate].
Qed.

(** X2.  The closest threat is chosen by the distances rounded to two
    decimals, so it is the nearest origin up to the rounding: its
    haversine distance to the base exceeds that of any other threat by at
    most 0.01 km. *)
Theorem closest_within_rounding (threats_raw : list Raw.t) (threats : list Threat.t)
    (c : Threat.t) :
  milestone2 threats_raw = Ok threats ->
  closest threats = Ok c ->
  In c threats /\
  forall t, In t threats ->
    exists dc dt,
      haversine_km (Threat.origin_lat c) (Threat.origin_lon c) (Fin BASE_LAT) (Fin BASE_LON)
      = Ok dc /\
      haversine_km (Threat.origin_lat t) (Threat.origin_lon t) (Fin BASE_LAT) (Fin BASE_LON)
      = Ok dt /\
      dc <= dt + (1 # 100).
Proof.
  intros Hm2 Hc. apply milestone2_inv in Hm2. destruct Hm2 as [Hall _].
  apply closest_le in Hc. destruct Hc as [Hin Hmin]. split; [exact Hin |].
  intros t Ht.
  destruct (Forall2_In_r _ _ _ _ Hall Hin) as [rc [_ Hrc]].
  destruct (Forall2_In_r _ _ _ _ Hall Ht) as [rt [_ Hrt]].
  destruct (threat_of_raw_distance _ _ Hrc) as [dc [Hdc Ec]].
  destruct (threat_of_raw_distance _ _ Hrt) as [dt [Hdt Et]].
  exists dc, dt. split; [exact Hdc |]. split; [exact Hdt |].
  specialize (Hmin t Ht). rewrite Ec, Et in Hmin.
  pose proof (round2_near dc) as Nc. pose proof (round2_near dt) as Nt.
  apply Qabs_Qle_condition in Nc, Nt. lra.
Qed.

(** X15.  Milestone 2 keeps every threat, in order: when it succeeds the
    list is not empty, has one dictionary per raw record, and each
    dictionary carries the record's id, type and kinematics unchanged. *)
Theorem milestone2_keeps_records (threats_raw : list Raw.t) (threats : list Threat.t) :
  milestone2 threats_raw = Ok threats ->
  threats_raw <> [] /\
  map Threat.id threats = map Raw.id threats_raw /\
  map Threat.type threats = map Raw.type threats_raw /\
  map (fun t => (Threat.origin_lat t, Threat.origin_lon t, Threat.bearing_deg t,
                 Threat.speed_kmh t, Threat.duration_min t)) threats
  = map (fun r => (Raw.origin_lat r, Raw.origin_lon r, Raw.bearing_deg r,
                   Raw.speed_kmh r, Raw.duration_min r)) threats_raw.
Proof.
  intro H. apply milestone2_inv in H. destruct H as [Hall Hne].
  split.
  { intro E. subst. inversion Hall. subst. congruence. }
  clear Hne.
  induction Hall as [| r t rs ts Hrt _ (IH1 & IH2 & IH3)]; [repeat split |].
  unfold threat_of_raw in Hrt.
  apply bind_ok_inv in Hrt. destruct Hrt as [d [_ Hrt]].
  apply bind_ok_inv in Hrt. destruct Hrt as [b [_ Hrt]].
  injection Hrt as <-. simpl. rewrite IH1, IH2, IH3. repeat split.
Qed.

(** ** The affected countries of milestone 4 *)

Lemma existsb_eqb_In (name : string) (s : list string) :
  existsb (String.eqb name) s = true <-> In name s.
Proof.
  rewrite existsb_exists. split.
  - intros [x [Hx E]]. apply String.eqb_eq in E. subst. exact Hx.
  - intro H. exists name. split; [exact H | apply String.eqb_refl].
Qed.

Lemma set_add_spec (s : list string) (name : string) :
  NoDup s ->
  NoDup (set_add s name) /\ forall x, In x (set_add s name) <-> x = name \/ In x s.
Proof.
  intro Hnd. unfold set_add.
  destruct (existsb (String.eqb name) s) eqn:E.
  - apply existsb_eqb_In in E. split; [exact Hnd |].
    intro x. split; [auto |]. intros [-> | H]; assumption.
  - assert (Hnot : ~ In name s).
    { intro H. apply existsb_eqb_In in H. congruence. }
    split.
    + apply NoDup_app; [exact Hnd | constructor; [intros [] | constructor] |].
      intros x Hx [<- | []]. contradiction.
    + intro x. rewrite in_app_iff. simpl. intuition.
Qed.

Lemma set_update_spec (names : list string) :
  forall s, NoDup s ->
    NoDup (set_update s names) /\
    forall x, In x (set_update s names) <-> In x s \/ In x names.
Proof.
  unfold set_update.
  induction names as [| n names IH]; intros s Hnd; simpl.
  - split; [exact Hnd | intro x; intuition].
  - destruct (set_add_spec s n Hnd) as [Hnd' Hin'].
    destruct (IH _ Hnd') as [Hnd'' Hin'']. split; [exact Hnd'' |].
    intro x. rewrite Hin'', Hin'. intuition.
Qed.

Lemma all_intersected_fold (world : list (CountryRow Geometry)) (threats : list Track.t) :
  forall s, NoDup s ->
    NoDup (fold_left (fun s t => set_update s (intersected_countries world (trajectory_line t)))
                     threats s) /\
    forall x,
      In x (fold_left (fun s t => set_update s (intersected_countries world (trajectory_line t)))
                      threats s) <->
      In x s \/ exists t, In t threats /\
                          In x (intersected_countries world (trajectory_line t)).
Proof.
  induction threats as [| t threats IH]; intros s Hnd; simpl.
  - split; [exact Hnd |]. intro x. split; [auto |]. intros [H | [t [[] _]]]. exact H.
  - destruct (set_update_spec (intersected_countries world (trajectory_line t)) s Hnd)
      as [Hnd' Hin'].
    destruct (IH _ Hnd') as [Hnd'' Hin'']. split; [exact Hnd'' |].
    intro x. rewrite Hin'', Hin'. split.
    + intros [[H | H] | [t' [Ht' H]]]; [left; exact H | right | right].
      * exists t. split; [left; reflexivity | exact H].
      * exists t'. split; [right; exact Ht' | exact H].
    + intros [H | [t' [[<- | Ht'] H]]]; [left; left; exact H | left; right; exact H |].
      right. exists t'. split; assumption.
Qed.

Lemma all_intersected_countries_members
    (world : list (CountryRow Geometry)) (threats : list Track.t) :
  NoDup (all_intersected_countries world threats) /\
  forall name,
    In name (all_intersected_countries world threats) <->
    exists t c,
      In t threats /\ In c world /\ COUNTRY c = name /\
      intersects (geometry c) (trajectory_line t) = true.
Proof.
  destruct (all_intersected_fold world threats [] (NoDup_nil _)) as [Hnd Hin].
  split; [exact Hnd |]. intro name. unfold all_intersected_countries. rewrite Hin.
  split.
  - intros [[] | [t [Ht H]]]. apply intersected_countries_In in H.
    destruct H as [c [Hc [Hn Hi]]]. exists t, c. auto.
  - intros [t [c [Ht [Hc [Hn Hi]]]]]. right. exists t. split; [exact Ht |].
    apply intersected_countries_In. exists c. auto.
Qed.

(** X4.  The set of all intersected countries has no duplicate, and a
    name is in it exactly when, for some threat, a polygon of that name
    intersects the threat's trajectory line. *)
Theorem all_intersected_countries_union
    (world_4326 : list (CountryRow Geometry)) (threats : list Track.t) :
  NoDup (all_intersected_countries world_4326 threats) /\
  forall name,
    In name (all_intersected_countries world_4326 threats) <->
    exists t c,
      In t threats /\ In c world_4326 /\ COUNTRY c = name /\
      intersects (geometry c) (trajectory_line t) = true.
Proof. apply all_intersected_countries_members. Qed.

Lemma filter_split {A : Type} (p : A -> bool) (l : list A) :
  Permutation l (filter p l ++ filter (fun x => negb (p x)) l).
Proof.
  induction l as [| x l IH]; simpl; [constructor |].
  destruct (p x); simpl.
  - constructor. exact IH.
  - apply Permutation_cons_app. exact IH.
Qed.

(** X5.  The affected and unaffected layers of the map split the
    dataset: together they hold every row once, a row is drawn as
    affected exactly when its name is in the given set of names, and no
    row is in both layers. *)
Theorem map_layers_partition (world_4326 : list (CountryRow Geometry)) (names : list string) :
  Permutation world_4326
              (intersected_gdf world_4326 names ++ non_intersected_gdf world_4326 names) /\
  (forall c, In c (intersected_gdf world_4326 names) <->
             In c world_4326 /\ In (COUNTRY c) names) /\
  (forall c, In c (non_intersected_gdf world_4326 names) <->
             In c world_4326 /\ ~ In (COUNTRY c) names) /\
  (forall c, In c (intersected_gdf world_4326 names) ->
             ~ In c (non_intersected_gdf world_4326 names)).
Proof.
  unfold intersected_gdf, non_intersected_gdf, isin.
  split; [apply filter_split |].
  assert (H1 : forall c,
             In c (filter (fun c => existsb (String.eqb (COUNTRY c)) names) world_4326) <->
             In c world_4326 /\ In (COUNTRY c) names).
  { intro c. rewrite filter_In, existsb_eqb_In. reflexivity. }
  assert (H2 : forall c,
             In c (filter (fun c => negb (existsb (String.eqb (COUNTRY c)) names)) world_4326) <->
             In c world_4326 /\ ~ In (COUNTRY c) names).
  { intro c. rewrite filter_In, negb_true_iff. split; intros [Hc H]; split; try exact Hc.
    - intro Hin. apply existsb_eqb_In in Hin. congruence.
    - destruct (existsb (String.eqb (COUNTRY c)) names) eqn:E; [| reflexivity].
      apply existsb_eqb_In in E. contradiction. }
  split; [exact H1 |]. split; [exact H2 |].
  intros c Hc Hn. apply H1 in Hc. apply H2 in Hn.
  destruct Hc as [_ Hc]. destruct Hn as [_ Hn]. contradiction.
Qed.

Lemma NoDup_map_injective {A B : Type} (f : A -> B) (l : list A) (a b : A) :
  NoDup (map f l) -> In a l -> In b l -> f a = f b -> a = b.
Proof.
  induction l as [| x l IH]; simpl; intros Hnd Ha Hb E; [destruct Ha |].
  inversion Hnd as [| ? ? Hx Hl]; subst.
  destruct Ha as [-> | Ha]; destruct Hb as [-> | Hb]; try reflexivity.
  - exfalso. apply Hx. rewrite E. apply in_map. exact Hb.
  - exfalso. apply Hx. rewrite <- E. apply in_map. exact Ha.
  - apply IH; assumption.
Qed.

(** X6.  When the dataset's country names are distinct, the rows drawn as
    affected on the milestone 4 map are exactly the rows whose polygon
    intersects the trajectory line of some threat. *)
Theorem affected_layer_exact
    (world_4326 : list (CountryRow Geometry)) (threats : list Track.t)
    (c : CountryRow Geometry) :
  NoDup (map COUNTRY world_4326) ->
  (In c (intersected_gdf world_4326 (all_intersected_countries world_4326 threats)) <->
   In c world_4326 /\
   exists t, In t threats /\ intersects (geometry c) (trajectory_line t) = true).
Proof.
  intro Hnd. unfold intersected_gdf, isin.
  rewrite filter_In, existsb_eqb_In.
  destruct (all_intersected_countries_members world_4326 threats) as [_ Hin].
  rewrite Hin. split.
  - intros [Hc [t [c' [Ht [Hc' [Hn Hi]]]]]]. split; [exact Hc |].
    exists t. split; [exact Ht |].
    assert (E : c' = c) by (eapply NoDup_map_injective; eassumption).
    rewrite <- E. exact Hi.
  - intros [Hc [t [Ht Hi]]]. split; [exact Hc |].
    exists t, c. auto.
Qed.

(** ** The shape of the country table *)

Lemma insert_sorted_length (x : string) (l : list string) :
  List.length (insert_sorted x l) = S (List.length l).
Proof.
  induction l as [| y l IH]; simpl; [reflexivity |].
  destruct (String.leb x y); simpl; [reflexivity | rewrite IH; reflexivity].
Qed.

Lemma sorted_length (l : list string) : List.length (sorted l) = List.length l.
Proof.
  induction l as [| x l IH]; simpl; [reflexivity |].
  rewrite insert_sorted_length, IH. reflexivity.
Qed.

(** X10.  For a non-empty damage table the country summary is always
    built ([max] never sees an empty group): it has exactly one row per
    distinct value of the country column, the rows are in ascending
    order of country without repetition, and the printed total is the
    number of distinct values.  For an empty damage table it raises
    KeyError on the missing column. *)
Theorem country_summary_shape (damage_df : list DamageRecord) :
  match damage_df with
  | [] => country_summary damage_df = Raise (KeyError "country")
  | _ =>
      exists table,
        country_summary damage_df = Ok table /\
        map Country table = sorted (unique (map country damage_df)) /\
        NoDup (map Country table) /\
        StronglySorted string_le (map Country table) /\
        (forall c, In c (map Country table) <-> In c (map country damage_df)) /\
        total_countries table = List.length (unique (map country damage_df))
  end.
Proof.
  destruct damage_df as [| r0 rs0]; [reflexivity |].
  destruct (country_summary_total (r0 :: rs0)) as [table Htable]; [discriminate |].
  exists table. split; [exact Htable |].
  pose proof (summary_rows_countries _ _ _ (country_summary_rows _ _ Htable)) as E.
  split; [exact E |]. rewrite E.
  split; [apply NoDup_sorted, NoDup_unique |].
  split; [apply StronglySorted_sorted |].
  split; [intro c; rewrite In_sorted, In_unique; reflexivity |].
  unfold total_countries. rewrite <- (length_map Country), E. apply sorted_length.
Qed.

(** X11.  The countries highlighted on the final map never include the
    ocean sentinel: a name is highlighted exactly when it is a country
    value of the damage table other than 'Ocean (no land)'.  The rows of
    the country summary are the highlighted countries plus, when some
    threat hit no land, the sentinel. *)
Theorem damage_countries_exclude_ocean (damage_df : list DamageRecord)
    (table : list SummaryRow) :
  country_summary damage_df = Ok table ->
  ~ In OCEAN (damage_countries damage_df) /\
  (forall name, In name (damage_countries damage_df) <->
                In name (map country damage_df) /\ name <> OCEAN) /\
  (forall name, In name (map Country table) <->
                In name (damage_countries damage_df) \/
                (name = OCEAN /\ In OCEAN (map country damage_df))).
Proof.
  intro Htable.
  assert (Hdc : forall name, In name (damage_countries damage_df) <->
                             In name (map country damage_df) /\ name <> OCEAN).
  { intro name. unfold damage_countries. rewrite !in_map_iff. split.
    - intros [r [Hn Hr]]. apply filter_In in Hr. destruct Hr as [Hr Hne].
      apply negb_true_iff, String.eqb_neq in Hne. split; [exists r; auto | congruence].
    - intros [[r [Hn Hr]] Hne]. exists r. split; [exact Hn |].
      apply filter_In. split; [exact Hr |].
      apply negb_true_iff, String.eqb_neq. congruence. }
  split; [intro H; apply Hdc in H; destruct H as [_ H]; apply H; reflexivity |].
  split; [exact Hdc |].
  intro name. rewrite (country_summary_countries _ _ name Htable), Hdc.
  destruct (string_dec name OCEAN) as [-> | Hne].
  - split; [intro H; right; split; [reflexivity | exact H] |].
    intros [[H _] | [_ H]]; exact H.
  - split; [intro H; left; split; assumption |].
    intros [[H _] | [E _]]; [exact H | contradiction].
Qed.

(** ** The damage zone of each threat *)

Lemma assign_damage_zone_threats (t_id : string) (names : list string)
    (st : list (Track.t * option (list string))) :
  map fst (assign_damage_zone t_id names st) = map fst st.
Proof.
  induction st as [| [t zone] st IH]; simpl; [reflexivity |].
  destruct (String.eqb (Track.id t) t_id); simpl; [reflexivity | rewrite IH; reflexivity].
Qed.

(** An assignment whose id is carried by no threat of a prefix passes
    over that prefix. *)
Lemma assign_damage_zone_skip (t_id : string) (names : list string)
    (done rest : list (Track.t * option (list string))) :
  ~ In t_id (map (fun p => Track.id (fst p)) done) ->
  assign_damage_zone t_id names (done ++ rest)
  = done ++ assign_damage_zone t_id names rest.
Proof.
  induction done as [| [t zone] done IH]; simpl; intro H; [reflexivity |].
  destruct (String.eqb (Track.id t) t_id) eqn:E.
  - apply String.eqb_eq in E. exfalso. apply H. left. exact E.
  - rewrite IH; [reflexivity |]. intro Hin. apply H. right. exact Hin.
Qed.

Lemma damage_zone_loop (world : list (CountryRow Geometry)) :
  forall (threats : list Track.t) (buffers : list (Endpoint.t Geometry))
         (done : list (Track.t * option (list string))),
    map Endpoint.id buffers = map Track.id threats ->
    NoDup (map (fun p => Track.id (fst p)) done ++ map Track.id threats) ->
    fold_left (fun st buf_row =>
                 assign_damage_zone (Endpoint.id buf_row)
                                    (map COUNTRY (affected world buf_row)) st)
              buffers (done ++ map (fun t => (t, None)) threats)
    = done ++ map (fun p => (fst p, Some (map COUNTRY (affected world (snd p)))))
                  (combine threats buffers).
Proof.
  induction threats as [| t threats IH]; intros buffers done Hids Hnd.
  - destruct buffers; [reflexivity | discriminate].
  - destruct buffers as [| b buffers]; [discriminate |].
    simpl in Hids. injection Hids as Hid Hids.
    simpl fold_left. simpl map at 2.
    rewrite assign_damage_zone_skip.
    2:{ rewrite Hid. intro Hin.
        apply NoDup_remove_2 in Hnd. apply Hnd. apply in_or_app. left. exact Hin. }
    simpl assign_damage_zone. rewrite Hid, String.eqb_refl.
    change (done ++ (t, Some (map COUNTRY (affected world b)))
                 :: map (fun t0 => (t0, None)) threats)
      with (done ++ [(t, Some (map COUNTRY (affected world b)))]
                 ++ map (fun t0 : Track.t => (t0, @None (list string))) threats).
    rewrite app_assoc. rewrite IH.
    + rewrite <- app_assoc. reflexivity.
    + exact Hids.
    + rewrite map_app. simpl. rewrite <- app_assoc. simpl.
      simpl in Hnd. exact Hnd.
Qed.

(** X12.  With distinct threat ids, the damage-zone loop gives every
    threat its own list: the ['damage_zone_countries'] of the threat at
    each position is the list of countries whose polygon intersects that
    threat's own buffer; and the country column of the damage records of
    a buffer row is that list, or the ocean sentinel alone when the list
    is empty. *)
Theorem damage_zone_countries_own
    (world_4326 : list (CountryRow Geometry))
    (threats : list Track.t) (endpoints : list (Endpoint.t Geometry)) :
  endpoint_data threats = Ok endpoints ->
  NoDup (map Track.id threats) ->
  damage_zone_countries world_4326 (buffers_4326 endpoints) threats
  = map (fun p => (fst p, Some (map COUNTRY (affected world_4326 (snd p)))))
        (combine threats (buffers_4326 endpoints)) /\
  List.length (buffers_4326 endpoints) = List.length threats /\
  forall buf_row, In buf_row (buffers_4326 endpoints) ->
    map country (records_of_row world_4326 buf_row)
    = match map COUNTRY (affected world_4326 buf_row) with
      | [] => [OCEAN]
      | names => names
      end.
Proof.
  intros Hrun Hnd.
  assert (Hids : map Endpoint.id (buffers_4326 endpoints) = map Track.id threats).
  { unfold buffers_4326. rewrite map_map. simpl.
    apply mapM_ok_inv in Hrun. clear Hnd.
    induction Hrun as [| t row ts rows Ht _ IH]; [reflexivity |].
    destruct (endpoint_row_inv _ _ Ht) as (style & km & s & _ & _ & _ & ->).
    simpl. f_equal. exact IH. }
  split; [| split].
  - unfold damage_zone_countries.
    apply (damage_zone_loop world_4326 threats (buffers_4326 endpoints) []);
      [exact Hids | exact Hnd].
  - rewrite <- (length_map Endpoint.id), Hids, length_map. reflexivity.
  - intros buf_row _. rewrite records_of_row_eq.
    destruct (affected world_4326 buf_row) as [| c rows]; [reflexivity |].
    rewrite map_map. reflexivity.
Qed.

(** A threat that follows another threat of the same id is never
    assigned to. *)
Lemma assign_damage_zone_shadowed (t_id : string) (names : list string)
    (st : list (Track.t * option (list string))) (i j : nat)
    (p q : Track.t * option (list string)) :
  (j < i)%nat -> nth_error st j = Some q -> nth_error st i = Some p ->
  Track.id (fst q) = Track.id (fst p) ->
  nth_error (assign_damage_zone t_id names st) i = Some p.
Proof.
  revert i j. induction st as [| [t zone] st IH]; intros i j Hji Hq Hp Eid.
  - destruct j; discriminate.
  - destruct i as [| i]; [lia |]. simpl in Hp. simpl.
    destruct (String.eqb (Track.id t) t_id) eqn:E; [exact Hp |].
    simpl. destruct j as [| j].
    + simpl in Hq. injection Hq as <-. simpl in Eid.
      (* the assignment is for another id than that of [p] *)
      clear IH. revert i Hji Hp. induction st as [| [t' zone'] st IH']; intros i Hji Hp.
      * destruct i; discriminate.
      * simpl. destruct (String.eqb (Track.id t') t_id) eqn:E'.
        -- destruct i as [| i]; [| exact Hp].
           simpl in Hp. injection Hp as <-. simpl in Eid.
           apply String.eqb_eq in E'. apply String.eqb_neq in E. congruence.
        -- destruct i as [| i]; [exact Hp |]. simpl in Hp. simpl.
           apply IH'; [lia | exact Hp].
    + simpl in Hq. apply (IH i j); [lia | exact Hq | exact Hp | exact Eid].
Qed.

(** X13.  The damage-zone loop stops at the first threat of a given id:
    a threat that shares its id with an earlier threat of the list never
    gets the key ['damage_zone_countries'], whatever its buffer
    intersects, and the final report prints "Ocean only" for it. *)
Theorem damage_zone_countries_shadowed
    (world_4326 : list (CountryRow Geometry)) (buffers : list (Endpoint.t Geometry))
    (threats : list Track.t) (i j : nat) (t t' : Track.t) :
  (j < i)%nat ->
  nth_error threats j = Some t' ->
  nth_error threats i = Some t ->
  Track.id t' = Track.id t ->
  nth_error (damage_zone_countries world_4326 buffers threats) i = Some (t, None) /\
  damage_zone_text None = "Ocean only"%string.
Proof.
  intros Hji Hj Hi Eid. split; [| reflexivity].
  unfold damage_zone_countries.
  assert (Hgen : forall bs st,
             map fst st = threats ->
             nth_error st i = Some (t, None) ->
             nth_error (fold_left (fun st buf_row =>
                          assign_damage_zone (Endpoint.id buf_row)
                            (map COUNTRY (affected world_4326 buf_row)) st) bs st) i
             = Some (t, None)).
  { induction bs as [| b bs IH]; intros st Hst Hnth; [exact Hnth |].
    simpl. apply IH.
    - rewrite assign_damage_zone_threats. exact Hst.
    - assert (Hq : exists q, nth_error st j = Some q /\ fst q = t').
      { rewrite <- Hst in Hj. rewrite nth_error_map in Hj.
        destruct (nth_error st j) as [q |]; [| discriminate].
        simpl in Hj. injection Hj as Hq. exists q. auto. }
      destruct Hq as [q [Hq Eq]].
      apply (assign_damage_zone_shadowed _ _ st i j (t, None) q Hji Hq Hnth).
      rewrite Eq. exact Eid. }
  apply Hgen.
  - rewrite map_map. simpl. apply map_id.
  - rewrite nth_error_map, Hi. reflexivity.
Qed.

(** ** The proximity flag *)

Lemma min_dist_loop_flag (pts : list (Q * Q)) :
  Forall (fun p => exists d,
            haversine_km (Fin (fst p)) (Fin (snd p)) (Fin BASE_LAT) (Fin BASE_LON) = Ok d)
         pts ->
  forall acc, (acc = PInf \/ exists a, acc = Fin a) ->
    exists m,
      min_dist_loop pts acc = Ok m /\
      (m = PInf \/ exists a, m = Fin a) /\
      (pyle m (Fin BASE_PROXIMITY_KM) = true <->
       pyle acc (Fin BASE_PROXIMITY_KM) = true \/
       exists p d,
         In p pts /\
         haversine_km (Fin (fst p)) (Fin (snd p)) (Fin BASE_LAT) (Fin BASE_LON) = Ok d /\
         d <= BASE_PROXIMITY_KM).
Proof.
  induction 1 as [| [la lo] rest [d Hd] _ IH]; intros acc Hacc.
  - exists acc. split; [reflexivity |]. split; [exact Hacc |].
    split; [auto |]. intros [H | [p [d [[] _]]]]. exact H.
  - simpl in Hd. simpl min_dist_loop. rewrite Hd. simpl bind.
    set (acc' := if pylt (Fin d) acc then Fin d else acc).
    assert (Hacc' : acc' = PInf \/ exists a, acc' = Fin a).
    { unfold acc'. destruct (pylt (Fin d) acc); [right; eauto | exact Hacc]. }
    assert (Hstep : pyle acc' (Fin BASE_PROXIMITY_KM) = true <->
                    pyle acc (Fin BASE_PROXIMITY_KM) = true \/ d <= BASE_PROXIMITY_KM).
    { unfold acc'. destruct Hacc as [-> | [a ->]]; simpl.
      - rewrite Qle_bool_iff. split; [auto |]. intros [H | H]; [discriminate | exact H].
      - destruct (Qlt_bool d a) eqn:E; simpl; rewrite !Qle_bool_iff.
        + apply Qlt_bool_iff in E. split; [auto |]. intros [H | H]; [lra | exact H].
        + apply Qlt_bool_false in E. split; [auto |]. intros [H | H]; [exact H | lra]. }
    destruct (IH acc' Hacc') as [m [Hm [Hshape Hflag]]].
    exists m. split; [exact Hm |]. split; [exact Hshape |].
    rewrite Hflag, Hstep. split.
    + intros [[H | H] | [p [d' [Hp [Hd' Hle]]]]].
      * left. exact H.
      * right. exists (la, lo), d. split; [left; reflexivity | split; assumption].
      * right. exists p, d'. split; [right; exact Hp | split; assumption].
    + intros [H | [p [d' [[<- | Hp] [Hd' Hle]]]]].
      * left. left. exact H.
      * simpl in Hd'. rewrite Hd in Hd'. injection Hd' as <-. left. right. exact Hle.
      * right. exists p, d'. split; [exact Hp | split; assumption].
Qed.

(** X14.  When the distance of every sample to the base can be computed,
    the proximity analysis returns, and the threat is flagged near the
    base exactly when some sample of its trajectory is within 500 km of
    the base; a threat without samples is recorded at distance infinity
    and not flagged. *)
Theorem passes_near_base_iff (tr : Track.t) :
  Forall (fun p => exists d,
            haversine_km (Fin (fst p)) (Fin (snd p)) (Fin BASE_LAT) (Fin BASE_LON) = Ok d)
         (Track.trajectory_pts tr) ->
  exists recorded flag,
    proximity tr = Ok (recorded, flag) /\
    (flag = true <->
     exists p d,
       In p (Track.trajectory_pts tr) /\
       haversine_km (Fin (fst p)) (Fin (snd p)) (Fin BASE_LAT) (Fin BASE_LON) = Ok d /\
       d <= BASE_PROXIMITY_KM) /\
    (Track.trajectory_pts tr = [] -> recorded = PInf /\ flag = false).
Proof.
  intro Hall.
  destruct (min_dist_loop_flag _ Hall PInf (or_introl eq_refl)) as [m [Hm [_ Hflag]]].
  exists (pyround2 m), (pyle m (Fin BASE_PROXIMITY_KM)).
  split; [unfold proximity; rewrite Hm; reflexivity |]. split.
  - rewrite Hflag. split; [| auto]. intros [H | H]; [discriminate | exact H].
  - intro E. rewrite E in Hm. simpl in Hm. injection Hm as <-. split; reflexivity.
Qed.

End Pipeline.

(* ================================================================== *)
(** * The pipeline on the grid world *)
(* ================================================================== *)

(** ** Severity aggregation (C1) *)

Lemma country_summary_order_independent_witness :
  Permutation [Grid.alien_on_france; Grid.orbital_on_france]
              [Grid.orbital_on_france; Grid.alien_on_france] /\
  exists table row,
    country_summary [Grid.alien_on_france; Grid.orbital_on_france] = Ok table /\
    country_summary [Grid.orbital_on_france; Grid.alien_on_france] = Ok table /\
    In row table /\ Country row = "France"%string /\
    (severity_rank "Critical" <= severity_rank (Worst_Severity row))%Z.
Proof.
  split; [apply perm_swap |].
  assert (Hrk : Forall (fun r => ranked (severity r))
                       [Grid.alien_on_france; Grid.orbital_on_france])
    by (repeat constructor; simpl; tauto).
  destruct (proj1 (country_summary_order_independent
                     Grid.Geometry Grid.Point Grid.intersects Grid.damage_zone
                     Grid.world
                     [Grid.track "T1" "alien" (465 # 10) (25 # 10);
                      Grid.track "T2" "kaiju" 0 0]
                     [Grid.track "T2" "kaiju" 0 0;
                      Grid.track "T1" "alien" (465 # 10) (25 # 10)]
                     [Grid.alien_on_france; Grid.orbital_on_france]
                     [Grid.orbital_on_france; Grid.alien_on_france]
                     Hrk (perm_swap _ _ _) (perm_swap _ _ _)))
    as [table [Hrun [Hrun' [Hrows _]]]].
  - discriminate.
  - destruct (Hrows Grid.orbital_on_france (or_intror (or_introl eq_refl)))
      as [row [Hin [Hcountry Hworst]]].
    exists table, row. repeat split; assumption.
Defined.

Example country_summary_worst_is_critical :
  country_summary [Grid.alien_on_france; Grid.orbital_on_france]
  = Ok [mkSummary "France" "T1, T2" "alien, orbital" "Critical"].
Proof. reflexivity. Qed.

(** ** The ocean sentinel in the country table (C2) *)

(** C2, on the code.  One threat ends over France, one over open water:
    the country table has a row for the sentinel, which [total_countries] counts as a
    country, while [damage_countries] leaves it out. *)
Theorem ocean_row_in_country_summary :
  assessment Grid.Geometry Grid.Point Grid.intersects Grid.damage_zone Grid.world
             [Grid.track "T1" "alien" (465 # 10) (25 # 10);
              Grid.track "T2" "kaiju" 0 0]
  = Ok [mkSummary "France" "T1" "alien" "High";
        mkSummary "Ocean (no land)" "T2" "kaiju" "Severe"] /\
  total_countries [mkSummary "France" "T1" "alien" "High";
                   mkSummary "Ocean (no land)" "T2" "kaiju" "Severe"] = 2%nat /\
  damage_countries
    (damage_records Grid.Geometry Grid.intersects Grid.world
                    [Grid.buffer_on_france; Grid.buffer_on_water])
  = ["France"%string].
Proof. repeat split. Qed.

(** ** One record per threat and country (C3) *)

Lemma damage_records_per_threat_witness :
  NoDup (map Endpoint.id [Grid.buffer_on_france; Grid.buffer_on_water]) /\
  records_of_threat "T2"
    (damage_records Grid.Geometry Grid.intersects Grid.world
                    [Grid.buffer_on_france; Grid.buffer_on_water])
  = [record_for Grid.Geometry Grid.buffer_on_water OCEAN].
Proof.
  assert (Hnd : NoDup (map Endpoint.id [Grid.buffer_on_france; Grid.buffer_on_water])).
  { simpl. constructor.
    - intros [H | []]. discriminate H.
    - constructor; [intros [] | constructor]. }
  split; [exact Hnd |].
  refine (proj1 (damage_records_per_threat
                   Grid.Geometry Grid.intersects Grid.world
                   [Grid.buffer_on_france; Grid.buffer_on_water]
                   Grid.buffer_on_water Hnd _) _).
  - right. left. reflexivity.
  - reflexivity.
Defined.

(** ** Sample count (C4) *)

Lemma trajectory_points_count_witness :
  exists pts,
    trajectory_points Grid.dest (Fin 0) (Fin 0) (Fin 90) (Fin 600) (Fin 5) (Fin 2)
    = Ok pts /\
    Z.of_nat (List.length pts) = (Qceiling (5 / 2) + 1)%Z.
Proof.
  destruct (trajectory_points_count Grid.dest 0 0 90 600 5 2)
    as [pts [Hrun [Hlen _]]].
  - reflexivity.
  - apply Qle_bool_iff. reflexivity.
  - apply Qle_bool_iff. reflexivity.
  - reflexivity.
  - exists pts. split; [exact Hrun | exact Hlen].
Defined.

(** ** Proximity (C6) *)

(** C6 fails as stated.  A track of three samples, a pass north of the
    base from west to east: by the grid's distance the samples are at
    722.004, 500.004 and 722.004 km of the base.  The minimum over the
    samples is 500.004; the recorded minimum is 500.0, which is not that
    minimum, and the threat is flagged not near although the recorded
    value is within 500 km. *)
Lemma proximity_records_rounded_value :
  exists recorded m,
    Track.trajectory_pts (Grid.track_through "T1" "alien" Grid.pass_at_500)
    = Grid.pass_at_500 /\
    List.length Grid.pass_at_500 = 3%nat /\
    proximity Grid.hav (Grid.track_through "T1" "alien" Grid.pass_at_500)
    = Ok (Fin recorded, false) /\
    is_minimum m (base_distances Grid.hav Grid.pass_at_500) /\
    m == 500004 # 1000 /\
    recorded == 500 /\
    ~ recorded == m /\
    recorded <= BASE_PROXIMITY_KM.
Proof.
  eexists.
  exists (Grid.hav (BASE_LAT + (41667 # 9250)) BASE_LON BASE_LAT BASE_LON).
  split; [reflexivity |]. split; [reflexivity |]. split; [reflexivity |].
  split.
  { split; [right; left; reflexivity |].
    intros d [<- | [<- | [<- | []]]]; apply Qle_bool_iff; reflexivity. }
  split; [reflexivity |]. split; [reflexivity |].
  split; [intro E; vm_compute in E; discriminate E |].
  apply Qle_bool_iff. reflexivity.
Qed.

Lemma proximity_rounded_minimum_witness :
  exists m,
    is_minimum m (base_distances Grid.hav Grid.pass_at_500) /\
    proximity Grid.hav (Grid.track_through "T1" "alien" Grid.pass_at_500)
    = Ok (Fin (round2 m), Qle_bool m BASE_PROXIMITY_KM) /\
    Qabs (round2 m - m) <= 1 # 200.
Proof.
  destruct (proximity_rounded_minimum Grid.hav
              (Grid.track_through "T1" "alien" Grid.pass_at_500))
    as [m [Hmin [Hrun [_ Hnear]]]].
  - discriminate.
  - repeat constructor.
  - exists m. split; [exact Hmin | split; [exact Hrun | exact Hnear]].
Defined.

(** The same pass 444 km north of the base: the minimum is an exact
    number of hundredths, recorded as it is, and the threat is flagged. *)
Example proximity_of_near_pass :
  proximity Grid.hav (Grid.track_through "T2" "kaiju" Grid.pass_at_444)
  = Ok (Fin (round2 444), true) /\
  round2 444 == 444.
Proof. split; [vm_compute | ]; reflexivity. Qed.

(** ** Line intersection (C7) *)

(** C7 fails as stated.  Two polygon rows of one name that both
    intersect the path put the name in the result twice: the result is a
    list with one entry per intersecting row, not a set of names. *)
Lemma intersected_countries_repeat_a_name :
  intersected_countries Grid.Geometry Grid.intersects [Grid.france; Grid.corsica] Grid.path
  = ["France"%string; "France"%string] /\
  count_occ string_dec
    (intersected_countries Grid.Geometry Grid.intersects
       [Grid.france; Grid.corsica] Grid.path) "France"%string = 2%nat /\
  ~ NoDup (intersected_countries Grid.Geometry Grid.intersects
             [Grid.france; Grid.corsica] Grid.path).
Proof.
  split; [reflexivity |]. split; [reflexivity |].
  intro H. vm_compute in H. inversion H as [| ? ? Hin _]. apply Hin. left. reflexivity.
Qed.

Lemma intersected_countries_dataset_order_witness :
  Permutation [Grid.france; Grid.corsica; Grid.spain]
              [Grid.spain; Grid.corsica; Grid.france] /\
  Permutation
    (intersected_countries Grid.Geometry Grid.intersects
       [Grid.france; Grid.corsica; Grid.spain] Grid.path)
    (intersected_countries Grid.Geometry Grid.intersects
       [Grid.spain; Grid.corsica; Grid.france] Grid.path) /\
  count_occ string_dec
    (intersected_countries Grid.Geometry Grid.intersects
       [Grid.france; Grid.corsica; Grid.spain] Grid.path) "France"%string = 2%nat /\
  (In "Spain"%string
      (intersected_countries Grid.Geometry Grid.intersects
         [Grid.france; Grid.corsica; Grid.spain] Grid.path) <->
   exists c, In c [Grid.france; Grid.corsica; Grid.spain] /\ COUNTRY c = "Spain"%string /\
             Grid.intersects (geometry c) Grid.path = true).
Proof.
  assert (HP : Permutation [Grid.france; Grid.corsica; Grid.spain]
                           [Grid.spain; Grid.corsica; Grid.france])
    by exact (Permutation_rev [Grid.france; Grid.corsica; Grid.spain]).
  split; [exact HP |].
  destruct (intersected_countries_dataset_order
              Grid.Geometry Grid.intersects
              [Grid.france; Grid.corsica; Grid.spain]
              [Grid.spain; Grid.corsica; Grid.france] Grid.path HP)
    as [_ [_ [_ [Hin [Hcount [Hperm _]]]]]].
  split; [exact Hperm |].
  split; [rewrite Hcount; reflexivity | apply Hin].
Defined.

(** The list follows the order of the dataset. *)
Example intersected_countries_follow_dataset :
  intersected_countries Grid.Geometry Grid.intersects [Grid.france; Grid.spain] Grid.path
  = ["France"%string; "Spain"%string] /\
  intersected_countries Grid.Geometry Grid.intersects [Grid.spain; Grid.france] Grid.path
  = ["Spain"%string; "France"%string].
Proof. split; reflexivity. Qed.

(** ** Unknown threat types (C8) *)

(** C8, on the code.  A threat of a type outside THREAT_STYLES: the
    drawing helpers style
    it gray, a style without a buffer radius, and go on; the damage-zone
    stage raises KeyError. *)
Theorem unknown_type_handled_differently :
  marker_color THREAT_STYLES "drone" = Ok "gray"%string /\
  style_index "buffer_km" (style_buffer_km (marker_style THREAT_STYLES "drone"))
  = Raise (KeyError "buffer_km") /\
  endpoint_row Grid.Geometry Grid.Point (Grid.track "T9" "drone" 0 0)
  = Raise (KeyError "drone").
Proof. repeat split. Qed.

(** ** Invalid input (C9) *)

Lemma invalid_input_rejected_witness :
  invalid_input (Raw.mk "T1" "alien" (Fin 10) (Fin 20) (Fin 0) (Fin (-(5))) (Fin 30)) = true /\
  (exists t2,
      threat_of_raw Grid.hav Grid.brg
        (Raw.mk "T1" "alien" (Fin 10) (Fin 20) (Fin 0) (Fin (-(5))) (Fin 30)) = Ok t2 /\
      add_trajectory Grid.dest Grid.fmul Grid.fdiv Grid.Geometry Grid.LineString t2
      = Raise InvalidInput) /\
  enrich Grid.hav Grid.brg Grid.dest Grid.fmul Grid.fdiv Grid.Geometry Grid.LineString
         [Raw.mk "T0" "kaiju" (Fin 10) (Fin 20) (Fin 0) (Fin 100) (Fin 30);
          Raw.mk "T1" "alien" (Fin 10) (Fin 20) (Fin 0) (Fin (-(5))) (Fin 30)]
  = Raise InvalidInput.
Proof.
  split; [reflexivity |].
  destruct (invalid_input_rejected
              Grid.hav Grid.brg Grid.dest Grid.fmul Grid.fdiv Grid.Geometry Grid.LineString
              [Raw.mk "T0" "kaiju" (Fin 10) (Fin 20) (Fin 0) (Fin 100) (Fin 30);
               Raw.mk "T1" "alien" (Fin 10) (Fin 20) (Fin 0) (Fin (-(5))) (Fin 30)]
              (Raw.mk "T1" "alien" (Fin 10) (Fin 20) (Fin 0) (Fin (-(5))) (Fin 30))
              (or_intror (or_introl eq_refl)) eq_refl)
    as [[Hm2 | Hm3] [_ Hbatch]].
  - discriminate Hm2.
  - split; [exact Hm3 |]. apply Hbatch.
    intros r q [<- | [<- | []]] Hq; injection Hq as <-; discriminate.
Defined.

(** A record out of range is rejected by the distance primitive of
    milestone 2. *)
Example latitude_out_of_range_rejected :
  threat_of_raw Grid.hav Grid.brg
    (Raw.mk "T1" "alien" (Fin 95) (Fin 0) (Fin 0) (Fin 100) (Fin 30))
  = Raise InvalidInput.
Proof. reflexivity. Qed.

Example negative_speed_rejected :
  enrich Grid.hav Grid.brg Grid.dest Grid.fmul Grid.fdiv Grid.Geometry Grid.LineString
         [Raw.mk "T1" "alien" (Fin 10) (Fin 20) (Fin 0) (Fin (-(5))) (Fin 30)]
  = Raise InvalidInput.
Proof. reflexivity. Qed.

Example nan_duration_rejected :
  enrich Grid.hav Grid.brg Grid.dest Grid.fmul Grid.fdiv Grid.Geometry Grid.LineString
         [Raw.mk "T1" "alien" (Fin 10) (Fin 20) (Fin 0) (Fin 100) NaN]
  = Raise InvalidInput.
Proof. reflexivity. Qed.

(** A valid record of duration zero has a trajectory of one sample, on
    which [LineString] raises: the script stops there, before the sampler
    sees the invalid record that follows. *)
Example zero_duration_stops_first :
  invalid_input (Raw.mk "T0" "kaiju" (Fin 10) (Fin 20) (Fin 0) (Fin 100) (Fin 0)) = false /\
  enrich Grid.hav Grid.brg Grid.dest Grid.fmul Grid.fdiv Grid.Geometry Grid.LineString
         [Raw.mk "T0" "kaiju" (Fin 10) (Fin 20) (Fin 0) (Fin 100) (Fin 0);
          Raw.mk "T1" "alien" (Fin 10) (Fin 20) (Fin 0) (Fin (-(5))) (Fin 30)]
  = Raise LineStringError.
Proof. split; reflexivity. Qed.

Example valid_record_enriched :
  exists tracks,
    enrich Grid.hav Grid.brg Grid.dest Grid.fmul Grid.fdiv Grid.Geometry Grid.LineString
           [Raw.mk "T1" "alien" (Fin 10) (Fin 20) (Fin 90) (Fin 600) (Fin (15 # 2))]
    = Ok tracks /\
    map Track.num_points tracks = [5%nat].
Proof. eexists. split; reflexivity. Qed.

(** ** Total distance (C10) *)


(** The product of the doubles, not the exact product, is what is
    rounded: a multiplication that rounds 99.225 up to the next double
    gives 99.23, where the exact product would give 99.22. *)
Example total_distance_follows_the_doubles :
  round2 (99225 # 1000) == 9922 # 100 /\
  round2 ((99225 # 1000) + (1 # 100000000000000)) == 9923 # 100.
Proof. split; reflexivity. Qed.

(* ================================================================== *)
(** * The reports on the grid world *)
(* ================================================================== *)

Lemma closest_within_rounding_witness :
  exists threats c,
    milestone2 Grid.hav Grid.brg
               [Raw.mk "T1" "alien" (Fin 40) (Fin (-(100))) (Fin 90) (Fin 600) (Fin 5);
                Raw.mk "T2" "kaiju" (Fin 33) (Fin (-(97))) (Fin 0) (Fin 30) (Fin 60)]
    = Ok threats /\
    closest threats = Ok c /\
    In c threats /\ Threat.id c = "T2"%string.
Proof.
  eexists. eexists. split; [reflexivity |]. split; [reflexivity |].
  split; [| reflexivity].
  refine (proj1 (closest_within_rounding Grid.hav Grid.brg
                   [Raw.mk "T1" "alien" (Fin 40) (Fin (-(100))) (Fin 90) (Fin 600) (Fin 5);
                    Raw.mk "T2" "kaiju" (Fin 33) (Fin (-(97))) (Fin 0) (Fin 30) (Fin 60)]
                   _ _ _ _)); reflexivity.
Defined.

Lemma milestone2_keeps_records_witness :
  exists threats,
    milestone2 Grid.hav Grid.brg
               [Raw.mk "T1" "alien" (Fin 40) (Fin (-(100))) (Fin 90) (Fin 600) (Fin 5);
                Raw.mk "T2" "kaiju" (Fin 33) (Fin (-(97))) (Fin 0) (Fin 30) (Fin 60)]
    = Ok threats /\
    map Threat.id threats = ["T1"%string; "T2"%string].
Proof.
  eexists. split; [reflexivity |].
  refine (proj1 (proj2 (milestone2_keeps_records Grid.hav Grid.brg
                   [Raw.mk "T1" "alien" (Fin 40) (Fin (-(100))) (Fin 90) (Fin 600) (Fin 5);
                    Raw.mk "T2" "kaiju" (Fin 33) (Fin (-(97))) (Fin 0) (Fin 30) (Fin 60)]
                   _ _))).
  reflexivity.
Defined.

Lemma affected_layer_exact_witness :
  NoDup (map COUNTRY Grid.world) /\
  In Grid.france
     (intersected_gdf Grid.Geometry Grid.world
        (all_intersected_countries Grid.Geometry Grid.LineString Grid.intersects Grid.world
           [Grid.track "T1" "alien" (465 # 10) (25 # 10)])).
Proof.
  assert (Hnd : NoDup (map COUNTRY Grid.world)).
  { simpl. constructor.
    - intros [H | []]. discriminate H.
    - constructor; [intros [] | constructor]. }
  split; [exact Hnd |].
  refine (proj2 (affected_layer_exact Grid.Geometry Grid.LineString Grid.intersects
                   Grid.world [Grid.track "T1" "alien" (465 # 10) (25 # 10)]
                   Grid.france Hnd) _).
  split; [left; reflexivity |].
  exists (Grid.track "T1" "alien" (465 # 10) (25 # 10)).
  split; [left; reflexivity | reflexivity].
Defined.

Lemma endpoint_data_rows_witness :
  exists rows,
    endpoint_data Grid.Geometry Grid.Point
                  [Grid.track "T1" "alien" (465 # 10) (25 # 10);
                   Grid.track "T2" "kaiju" 0 0]
    = Ok rows /\
    map Endpoint.id rows = ["T1"%string; "T2"%string].
Proof.
  destruct (endpoint_data_rows Grid.Geometry Grid.Point
              [Grid.track "T1" "alien" (465 # 10) (25 # 10);
               Grid.track "T2" "kaiju" 0 0]) as [rows [Hrun [Hids _]]].
  - constructor; [simpl; tauto |]. constructor; [simpl; tauto | constructor].
  - exists rows. split; [exact Hrun | exact Hids].
Defined.

Lemma endpoint_data_first_unknown_witness :
  endpoint_data Grid.Geometry Grid.Point
                ([Grid.track "T1" "alien" (465 # 10) (25 # 10)]
                 ++ Grid.track "T9" "drone" 0 0
                 :: [Grid.track "T8" "balloon" 0 0; Grid.track "T2" "kaiju" 0 0])
  = Raise (KeyError "drone").
Proof.
  refine (endpoint_data_first_unknown Grid.Geometry Grid.Point
            [Grid.track "T1" "alien" (465 # 10) (25 # 10)]
            [Grid.track "T8" "balloon" 0 0; Grid.track "T2" "kaiju" 0 0]
            (Grid.track "T9" "drone" 0 0) _ _).
  - constructor; [simpl; tauto | constructor].
  - simpl. intros [H | [H | [H | [H | []]]]]; discriminate H.
Defined.

Lemma damage_countries_exclude_ocean_witness :
  ~ In OCEAN (damage_countries
                [Grid.alien_on_france; mkDamage OCEAN "T2" "kaiju" "Severe" 200]).
Proof.
  refine (proj1 (damage_countries_exclude_ocean
                   [Grid.alien_on_france; mkDamage OCEAN "T2" "kaiju" "Severe" 200]
                   _ _)).
  reflexivity.
Defined.

Lemma damage_zone_countries_own_witness :
  exists endpoints,
    endpoint_data Grid.Geometry Grid.Point
                  [Grid.track "T1" "alien" (465 # 10) (25 # 10);
                   Grid.track "T2" "kaiju" 0 0]
    = Ok endpoints /\
    map snd (damage_zone_countries Grid.Geometry Grid.intersects Grid.world
               (buffers_4326 Grid.Geometry Grid.damage_zone endpoints)
               [Grid.track "T1" "alien" (465 # 10) (25 # 10);
                Grid.track "T2" "kaiju" 0 0])
    = [Some ["France"%string]; Some []].
Proof.
  eexists. split; [reflexivity |].
  rewrite (proj1 (damage_zone_countries_own
                    Grid.Geometry Grid.Point Grid.intersects Grid.damage_zone Grid.world
                    [Grid.track "T1" "alien" (465 # 10) (25 # 10);
                     Grid.track "T2" "kaiju" 0 0] _ eq_refl
                    ltac:(simpl; constructor;
                          [intros [H | []]; discriminate H
                          | constructor; [intros [] | constructor]]))).
  reflexivity.
Defined.

Lemma damage_zone_countries_shadowed_witness :
  nth_error
    (damage_zone_countries Grid.Geometry Grid.intersects Grid.world
       [Grid.buffer_on_water; Grid.buffer_on_france]
       [Grid.track "T1" "kaiju" 0 0; Grid.track "T1" "alien" (465 # 10) (25 # 10)])
    1
  = Some (Grid.track "T1" "alien" (465 # 10) (25 # 10), None).
Proof.
  refine (proj1 (damage_zone_countries_shadowed
                   Grid.Geometry Grid.intersects Grid.world
                   [Grid.buffer_on_water; Grid.buffer_on_france]
                   [Grid.track "T1" "kaiju" 0 0;
                    Grid.track "T1" "alien" (465 # 10) (25 # 10)]
                   1 0 _ (Grid.track "T1" "kaiju" 0 0) _ _ _ _)).
  - apply Nat.lt_0_succ.
  - reflexivity.
  - reflexivity.
  - reflexivity.
Defined.

Lemma passes_near_base_iff_witness :
  exists recorded flag,
    proximity Grid.hav (Grid.track_through "T1" "alien" Grid.pass_at_444)
    = Ok (recorded, flag) /\
    (flag = true <->
     exists p d,
       In p Grid.pass_at_444 /\
       haversine_km Grid.hav (Fin (fst p)) (Fin (snd p)) (Fin BASE_LAT) (Fin BASE_LON)
       = Ok d /\
       d <= BASE_PROXIMITY_KM) /\
    flag = true /\
    ~ Grid.hav (BASE_LAT + 4) (BASE_LON - 2) BASE_LAT BASE_LON <= BASE_PROXIMITY_KM.
Proof.
  destruct (passes_near_base_iff Grid.hav
              (Grid.track_through "T1" "alien" Grid.pass_at_444))
    as [recorded [flag [Hrun [Hflag _]]]].
  - repeat constructor; eexists; reflexivity.
  - exists recorded, flag. split; [exact Hrun |]. split; [exact Hflag |].
    split.
    + apply Hflag. exists (BASE_LAT + 4, BASE_LON), (Grid.hav (BASE_LAT + 4) BASE_LON BASE_LAT BASE_LON).
      split; [right; left; reflexivity |]. split; [reflexivity |].
      apply Qle_bool_iff. reflexivity.
    + intro H. apply Qle_bool_iff in H. discriminate H.
Defined.
